(** * valid-rule-meta and no-restricted-imports: a shallow embedding

    The rule [valid-rule-meta] (packages/eslint-plugin-internal/src/rules/
    valid-rule-meta.ts) walks a rule definition and compares its [meta]
    capability flags with the [context.report] calls it makes.  The module
    [NoRestrictedImports] embeds the [verify] function of the
    [no-restricted-imports] rule, and [NoRestrictedImportsOptions] its
    [parseOptions].

    Nodes carry a numeric identity ([nid]) standing for object identity of
    the ESTree node; diagnostics are anchored on these identities.

    The generator functions [flattenExpressions] and [iterateProperties]
    recurse through scope resolution, which is not structural, so they take
    a [fuel] argument; [None] means the recursion did not come back within
    the fuel, i.e. the JavaScript generator never finishes. *)

From Stdlib Require Import String List Bool Arith Lia Permutation.
Set Warnings "-register-all".
Import ListNotations.
Open Scope string_scope.
Open Scope list_scope.

Module ValidRuleMeta.

(** ** ESTree fragment *)

(** Literal values ([Literal.value]). *)
Inductive lit : Type :=
| LString (s : string)
| LNumber (n : nat)
| LBool (b : bool)
| LNull
| LRegExp.

(** Expressions.  [Property] carries [pname], the result of
    [ASTUtils.getPropertyName(prop)] ([None] for a computed key without a
    static value), the node id of its key, and its value. *)
Inductive expr : Type :=
| Identifier (nid : nat) (name : string)
| Literal (nid : nat) (value : lit)
| ConditionalExpression (nid : nat) (test consequent alternate : expr)
| ObjectExpression (nid : nat) (properties : list elem)
| FunctionExpression (nid : nat) (params : list expr)
| ArrowFunctionExpression (nid : nat) (params : list expr)
| MemberExpression (nid : nat) (object property : expr)
| CallExpression (nid : nat) (callee : expr) (arguments : list expr)
| OtherExpression (nid : nat)
with elem : Type :=
| Property (nid : nat) (key : nat) (pname : option string) (value : expr)
| MethodDefinition (nid : nat) (key : nat) (pname : option string)
| SpreadElement (nid : nat) (argument : expr).

(** ** Scope analysis (eslint-scope), as read by the rule *)

Inductive def_type : Type :=
| DVariable | DParameter | DFunctionName | DClassName | DImportBinding.

(** One entry of [variable.defs]: its [type], the node id of [def.name],
    the [kind] of the parent declaration ([def.parent.kind]) and the
    declarator's [init] ([def.node.init]). *)
Record def : Type := mkDef {
  def_type_of : def_type;
  def_name : nat;
  def_kind : string;
  def_init : option expr
}.

Record variable : Type := mkVariable { defs : list def }.

(** [ASTUtils.findVariable(context.getScope(), node)]: the scope current at
    the visitor, looked up by the identifier's name. *)
Definition scope : Type := string -> option variable.

Definition is_variable_def (d : def) : bool :=
  match def_type_of d with DVariable => true | _ => false end.

(** The guard of [flattenExpressions] on an identifier:
    [variable && defs.length === 1 && defs[0].type === 'Variable' &&
     defs[0].parent.kind === 'const' && defs[0].node.init]. *)
Definition resolve_const (sc : scope) (name : string) : option expr :=
  match sc name with
  | Some v =>
      match defs v with
      | [d] => if is_variable_def d && String.eqb (def_kind d) "const"
               then def_init d else None
      | _ => None
      end
  | None => None
  end.

(** ** [flattenExpressions] *)

Section Walkers.
Variable sc : scope.

Fixpoint flattenExpressions (fuel : nat) (node : expr) : option (list expr) :=
  match fuel with
  | 0 => None
  | S f =>
      match node with
      | Identifier _ name =>
          match resolve_const sc name with
          | Some init => flattenExpressions f init
          | None => Some [node]
          end
      | ConditionalExpression _ _ consequent alternate =>
          match flattenExpressions f consequent with
          | Some l1 =>
              match flattenExpressions f alternate with
              | Some l2 => Some (l1 ++ l2)
              | None => None
              end
          | None => None
          end
      | _ => Some [node]
      end
  end.

(** ** [iterateProperties] *)

(** One pass of the generator body, given the recursive call [walk]
    (on nested object expressions) and the flattener [flatten]. *)
Section Body.
Variable walk : list elem -> option (list elem).
Variable flatten : expr -> option (list expr).

(** The inner [for (const expr of flattenExpressions(argument))] loop:
    the properties yielded and the final [hasUnknown] flag. *)
Fixpoint walk_flattened (es : list expr) : option (list elem * bool) :=
  match es with
  | [] => Some ([], false)
  | ObjectExpression _ ps :: rest =>
      match walk ps with
      | Some ys =>
          match walk_flattened rest with
          | Some (zs, u) => Some (ys ++ zs, u)
          | None => None
          end
      | None => None
      end
  | _ :: rest =>
      match walk_flattened rest with
      | Some (zs, _) => Some (zs, true)
      | None => None
      end
  end.

(** The outer [for (const prop of node.properties)] loop. *)
Fixpoint walk_properties (ps : list elem) : option (list elem) :=
  match ps with
  | [] => Some []
  | (SpreadElement _ argument as prop) :: rest =>
      match flatten argument with
      | Some es =>
          match walk_flattened es with
          | Some (ys, hasUnknown) =>
              match walk_properties rest with
              | Some zs => Some (ys ++ (if hasUnknown then [prop] else []) ++ zs)
              | None => None
              end
          | None => None
          end
      | None => None
      end
  | prop :: rest =>
      match walk_properties rest with
      | Some zs => Some (prop :: zs)
      | None => None
      end
  end.

End Body.

Fixpoint iterateProperties (fuel : nat) (properties : list elem)
  : option (list elem) :=
  match fuel with
  | 0 => None
  | S f => walk_properties (iterateProperties f) (flattenExpressions f) properties
  end.

End Walkers.

(** The flattening and walk results, whatever fuel reaches them. *)
Definition yields (sc : scope) (e : expr) (l : list expr) : Prop :=
  exists fuel, flattenExpressions sc fuel e = Some l.
Definition walks (sc : scope) (ps : list elem) (l : list elem) : Prop :=
  exists fuel, iterateProperties sc fuel ps = Some l.

Definition is_object (e : expr) : bool :=
  match e with ObjectExpression _ _ => true | _ => false end.

Definition is_spread (p : elem) : bool :=
  match p with SpreadElement _ _ => true | _ => false end.

(** The properties of the object-expression shapes of a flattening. *)
Fixpoint objects_of (es : list expr) : list (list elem) :=
  match es with
  | [] => []
  | ObjectExpression _ ps :: rest => ps :: objects_of rest
  | _ :: rest => objects_of rest
  end.

(** ** Names the generators resolve *)

(** The identifiers [flattenExpressions] looks up: at the top, or under
    the branches of conditional expressions. *)
Fixpoint heads (e : expr) : list string :=
  match e with
  | Identifier _ x => [x]
  | ConditionalExpression _ _ c a => heads c ++ heads a
  | _ => []
  end.

(** The identifiers the walker may look up from an expression: those of
    [heads], and those under the spread elements of object expressions. *)
Fixpoint deps (e : expr) : list string :=
  match e with
  | Identifier _ x => [x]
  | ConditionalExpression _ _ c a => deps c ++ deps a
  | ObjectExpression _ ps =>
      (fix go (ps : list elem) : list string :=
         match ps with
         | [] => []
         | SpreadElement _ a :: r => deps a ++ go r
         | _ :: r => go r
         end) ps
  | _ => []
  end.

Definition deps_elems : list elem -> list string :=
  fix go (ps : list elem) : list string :=
    match ps with
    | [] => []
    | SpreadElement _ a :: r => deps a ++ go r
    | _ :: r => go r
    end.

Fixpoint expr_size (e : expr) : nat :=
  match e with
  | ConditionalExpression _ _ c a => S (expr_size c + expr_size a)
  | ObjectExpression _ ps =>
      S ((fix go (ps : list elem) : nat :=
            match ps with
            | [] => 0
            | SpreadElement _ a :: r => S (expr_size a + go r)
            | _ :: r => S (go r)
            end) ps)
  | _ => 1
  end.

Definition elems_size : list elem -> nat :=
  fix go (ps : list elem) : nat :=
    match ps with
    | [] => 0
    | SpreadElement _ a :: r => S (expr_size a + go r)
    | _ :: r => S (go r)
    end.

(** Acyclic constant chains: a rank on names that strictly decreases from
    every name bound by a single [const] with an initializer to every name
    its initializer depends on. *)
Definition const_chains_ranked (sc : scope) (rank : string -> nat) : Prop :=
  forall x init, resolve_const sc x = Some init ->
  forall y, In y (deps init) -> rank y < rank x.

(** ** The rule's state: [ruleObject] *)

Record report : Type := mkReport {
  suggestNodes : list nat;
  fixNodes : list nat;
  hasUnknown : bool;
  found : bool
}.

(** [meta] is the [ObjectExpression] [meta.value]; we keep its properties.
    [context] is the node id of the first parameter of [create]. *)
Record ruleObject : Type := mkRuleObject {
  meta : list elem;
  context : nat;
  report_of : report
}.

Definition empty_report : report := mkReport [] [] false false.

Definition set_report (ro : ruleObject) (r : report) : ruleObject :=
  mkRuleObject (meta ro) (context ro) r.

Definition set_found (r : report) : report :=
  mkReport (suggestNodes r) (fixNodes r) (hasUnknown r) true.

Definition set_hasUnknown (b : bool) (r : report) : report :=
  mkReport (suggestNodes r) (fixNodes r) b (found r).

Definition push_suggest (k : nat) (r : report) : report :=
  mkReport (suggestNodes r ++ [k]) (fixNodes r) (hasUnknown r) (found r).

Definition push_fix (k : nat) (r : report) : report :=
  mkReport (suggestNodes r) (fixNodes r ++ [k]) (hasUnknown r) (found r).

Inductive messageId : Type :=
| shouldBeFixable | shouldNotBeFixable
| shouldBeSuggestable | shouldNotBeSuggestable.

Definition messageId_eqb (a b : messageId) : bool :=
  match a, b with
  | shouldBeFixable, shouldBeFixable
  | shouldNotBeFixable, shouldNotBeFixable
  | shouldBeSuggestable, shouldBeSuggestable
  | shouldNotBeSuggestable, shouldNotBeSuggestable => true
  | _, _ => false
  end.

(** A diagnostic passed to [context.report]: anchor node and message. *)
Record diag : Type := mkDiag { d_node : nat; d_messageId : messageId }.

(** [reports(nodes, messageId)] *)
Definition reports (nodes : list nat) (m : messageId) : list diag :=
  map (fun n => mkDiag n m) nodes.

(** ** Visitor [ObjectExpression] *)

(** The loop over [node.properties] remembering the last [meta] and the
    last [create] property (their values). *)
Fixpoint find_meta_create (ps : list elem) (meta create : option expr)
  : option expr * option expr :=
  match ps with
  | [] => (meta, create)
  | Property _ _ (Some name) value :: rest =>
      if String.eqb name "meta" then find_meta_create rest (Some value) create
      else if String.eqb name "create" then find_meta_create rest meta (Some value)
      else find_meta_create rest meta create
  | _ :: rest => find_meta_create rest meta create
  end.

Definition create_params (e : expr) : option (list expr) :=
  match e with
  | FunctionExpression _ params => Some params
  | ArrowFunctionExpression _ params => Some params
  | _ => None
  end.

(** The shape test of the visitor: [Some (meta.value.properties, context)]
    when [node] is a rule object. *)
Definition match_rule_object (properties : list elem) : option (list elem * nat) :=
  match find_meta_create properties None None with
  | (Some (ObjectExpression _ mps), Some cv) =>
      match create_params cv with
      | Some (Identifier cid _ :: _) => Some (mps, cid)
      | _ => None
      end
  | _ => None
  end.

Definition visitObjectExpression (st : option ruleObject) (properties : list elem)
  : option ruleObject :=
  match st with
  | Some _ => st
  | None =>
      match match_rule_object properties with
      | Some (mps, cid) => Some (mkRuleObject mps cid empty_report)
      | None => None
      end
  end.

(** ** Visitor [CallExpression] *)

(** The callee test [x.report] with [x] resolving to a variable one of
    whose definitions is the context parameter [ctx]. *)
Definition is_context_report (sc : scope) (callee : expr) (ctx : nat) : bool :=
  match callee with
  | MemberExpression _ (Identifier _ oname) (Identifier _ pname) =>
      String.eqb pname "report" &&
      match sc oname with
      | Some v => existsb (fun d => Nat.eqb (def_name d) ctx) (defs v)
      | None => false
      end
  | _ => false
  end.

(** The loop over [iterateProperties(descriptor)]. *)
Fixpoint collect_descriptor (props : list elem) (r : report) : report :=
  match props with
  | [] => r
  | Property _ key pname _ :: rest =>
      match pname with
      | Some name =>
          if String.eqb name "suggest" then collect_descriptor rest (push_suggest key r)
          else if String.eqb name "fix" then collect_descriptor rest (push_fix key r)
          else collect_descriptor rest r
      | None => collect_descriptor rest r
      end
  | _ :: rest => collect_descriptor rest (set_hasUnknown true r)
  end.

Definition visitCallExpression (sc : scope) (fuel : nat) (st : option ruleObject)
  (callee : expr) (arguments : list expr) : option (option ruleObject) :=
  match st with
  | None => Some st
  | Some ro =>
      if is_context_report sc callee (context ro) && Nat.eqb (length arguments) 1
      then
        let r := set_found (report_of ro) in
        match arguments with
        | [ObjectExpression _ ps] =>
            match iterateProperties sc fuel ps with
            | Some props => Some (Some (set_report ro (collect_descriptor props r)))
            | None => None
            end
        | _ => Some (Some (set_report ro (set_hasUnknown true r)))
        end
      else Some st
  end.

(** ** Visitor [Program:exit] *)

(** The loop over [iterateProperties(meta)]: [fixableProp] and
    [hasSuggestionsProp] as (property id, value), and [hasSpread]. *)
Fixpoint scan_meta (props : list elem) (fixableProp hasSuggestionsProp : option (nat * expr))
  (hasSpread : bool) : option (nat * expr) * option (nat * expr) * bool :=
  match props with
  | [] => (fixableProp, hasSuggestionsProp, hasSpread)
  | SpreadElement _ _ :: rest => scan_meta rest fixableProp hasSuggestionsProp true
  | Property pid _ (Some name) value :: rest =>
      if String.eqb name "fixable" then scan_meta rest (Some (pid, value)) hasSuggestionsProp hasSpread
      else if String.eqb name "hasSuggestions" then scan_meta rest fixableProp (Some (pid, value)) hasSpread
      else scan_meta rest fixableProp hasSuggestionsProp hasSpread
  | _ :: rest => scan_meta rest fixableProp hasSuggestionsProp hasSpread
  end.

Definition is_null_or_undefined (v : expr) : bool :=
  match v with
  | Literal _ LNull => true
  | Identifier _ name => String.eqb name "undefined"
  | _ => false
  end.

Definition fix_check (r : report) (fixableProp : option (nat * expr)) (hasSpread : bool)
  : list diag :=
  match fixNodes r with
  | _ :: _ =>
      if hasSpread then []
      else match fixableProp with
           | None => reports (fixNodes r) shouldBeFixable
           | Some (_, v) =>
               if is_null_or_undefined v then reports (fixNodes r) shouldBeFixable else []
           end
  | [] =>
      if negb (hasUnknown r) then
        match fixableProp with
        | Some (pid, Literal _ (LString _)) => [mkDiag pid shouldNotBeFixable]
        | _ => []
        end
      else []
  end.

Definition suggest_check (r : report) (hasSuggestionsProp : option (nat * expr))
  (hasSpread : bool) : list diag :=
  match suggestNodes r with
  | _ :: _ =>
      if hasSpread then []
      else match hasSuggestionsProp with
           | None => reports (suggestNodes r) shouldBeSuggestable
           | Some (_, Literal _ (LBool true)) => []
           | Some (_, Literal _ _) => reports (suggestNodes r) shouldBeSuggestable
           | Some _ => []
           end
  | [] =>
      if negb (hasUnknown r) then
        match hasSuggestionsProp with
        | Some (pid, Literal _ (LBool true)) => [mkDiag pid shouldNotBeSuggestable]
        | _ => []
        end
      else []
  end.

Definition programExit (sc : scope) (fuel : nat) (st : option ruleObject)
  : option (list diag) :=
  match st with
  | None => Some []
  | Some ro =>
      if negb (found (report_of ro)) then Some []
      else
        match iterateProperties sc fuel (meta ro) with
        | Some props =>
            let '(fixableProp, hasSuggestionsProp, hasSpread) := scan_meta props None None false in
            Some (fix_check (report_of ro) fixableProp hasSpread
                  ++ suggest_check (report_of ro) hasSuggestionsProp hasSpread)
        | None => None
        end
  end.

(** The three results of the loop of [Program:exit] over the meta. *)
Definition fixableProp_of (props : list elem) : option (nat * expr) :=
  let '(f, _, _) := scan_meta props None None false in f.
Definition hasSuggestionsProp_of (props : list elem) : option (nat * expr) :=
  let '(_, h, _) := scan_meta props None None false in h.
Definition hasSpread_of (props : list elem) : bool :=
  let '(_, _, b) := scan_meta props None None false in b.

(** Positive-direction messages (a capability is missing) and
    negative-direction ones (a capability is declared but unused). *)
Definition is_positive (m : messageId) : bool :=
  match m with shouldBeFixable | shouldBeSuggestable => true | _ => false end.

Definition positive_diags (ds : list diag) : list diag :=
  filter (fun d => is_positive (d_messageId d)) ds.
Definition negative_diags (ds : list diag) : list diag :=
  filter (fun d => negb (is_positive (d_messageId d))) ds.
Definition with_message (m : messageId) (ds : list diag) : list diag :=
  filter (fun d => messageId_eqb (d_messageId d) m) ds.

(** ** Traversal *)

(** The visitor calls of one file, in traversal order. *)
Inductive event : Type :=
| EvObjectExpression (properties : list elem)
| EvCallExpression (sc : scope) (callee : expr) (arguments : list expr).

Fixpoint run (fuel : nat) (evs : list event) (st : option ruleObject)
  : option (option ruleObject) :=
  match evs with
  | [] => Some st
  | EvObjectExpression ps :: rest => run fuel rest (visitObjectExpression st ps)
  | EvCallExpression sc callee args :: rest =>
      match visitCallExpression sc fuel st callee args with
      | Some st' => run fuel rest st'
      | None => None
      end
  end.

(** A whole file: the visitors, then [Program:exit] in scope [sc_exit]. *)
Definition lint (fuel : nat) (evs : list event) (sc_exit : scope) : option (list diag) :=
  match run fuel evs None with
  | Some st => programExit sc_exit fuel st
  | None => None
  end.

(** The first object expression of a traversal that has the rule-object
    shape: its meta properties and context parameter. *)
Fixpoint first_rule_object (evs : list event) : option (list elem * nat) :=
  match evs with
  | [] => None
  | EvObjectExpression ps :: rest =>
      match match_rule_object ps with
      | Some m => Some m
      | None => first_rule_object rest
      end
  | _ :: rest => first_rule_object rest
  end.

(** ** Concrete files, shaped like the rule's test suite *)

(** A scope in which [context] is the parameter with node id [cid] and the
    names in [consts] are single [const] declarations with an initializer. *)
Definition file_scope (cid : nat) (consts : list (string * expr)) : scope :=
  fun n =>
    if String.eqb n "context" then Some (mkVariable [mkDef DParameter cid "" None])
    else match find (fun p => String.eqb (fst p) n) consts with
         | Some (_, init) => Some (mkVariable [mkDef DVariable 0 "const" (Some init)])
         | None => None
         end.

(** [createRule({ meta: {meta_props}, create(context) { ... } })] *)
Definition rule_props (meta_props : list elem) : list elem :=
  [Property 1 2 (Some "meta") (ObjectExpression 3 meta_props);
   Property 4 5 (Some "create") (FunctionExpression 6 [Identifier 7 "context"])].

Definition context_report : expr :=
  MemberExpression 8 (Identifier 9 "context") (Identifier 10 "report").

(** The traversal of such a file with one [context.report({report_props})]
    call inside [create], in scope [sc]. *)
Definition rule_file (sc : scope) (meta_props report_props : list elem) : list event :=
  [EvObjectExpression (rule_props meta_props);
   EvObjectExpression meta_props;
   EvCallExpression sc context_report [ObjectExpression 11 report_props];
   EvObjectExpression report_props].

(** [const ruleMeta = cond ? {} : other;] as a binding of [file_scope]. *)
Definition ruleMeta_cond : expr :=
  ConditionalExpression 70 (Identifier 71 "cond") (ObjectExpression 72 [])
    (Identifier 73 "other").

(** [const a = b; const b = a;] *)
Definition cycle_scope : scope :=
  file_scope 7 [("a", Identifier 90 "b"); ("b", Identifier 91 "a")].

(** [meta: { ...ruleMeta }] *)
Definition spread_ruleMeta : list elem := [SpreadElement 80 (Identifier 81 "ruleMeta")].

(** [meta: { ...a }] *)
Definition spread_a : list elem := [SpreadElement 93 (Identifier 92 "a")].

(** A file whose only [context.report] call has two arguments. *)
Definition rule_file_two_args (meta_props : list elem) : list event :=
  [EvObjectExpression (rule_props meta_props);
   EvObjectExpression meta_props;
   EvCallExpression (file_scope 7 []) context_report
     [Identifier 60 "node"; Literal 61 (LString "message")]].

(** The same file without any [context.report] call. *)
Definition rule_file_no_report (meta_props : list elem) : list event :=
  [EvObjectExpression (rule_props meta_props);
   EvObjectExpression meta_props].

Definition node_messageId : list elem :=
  [Property 20 21 (Some "node") (Identifier 22 "node");
   Property 23 24 (Some "messageId") (Literal 25 (LString "test"))].

(** [fix() {}] with key node 27 *)
Definition fix_prop : elem := Property 26 27 (Some "fix") (FunctionExpression 28 []).
(** [suggest: []] with key node 30 *)
Definition suggest_prop : elem := Property 29 30 (Some "suggest") (OtherExpression 31).
(** [fixable: 'code'] as property 40 *)
Definition fixable_code : elem := Property 40 41 (Some "fixable") (Literal 42 (LString "code")).
(** [hasSuggestions: true] as property 43 *)
Definition hasSuggestions_true : elem :=
  Property 43 44 (Some "hasSuggestions") (Literal 45 (LBool true)).

(** ** Views of the collected state *)

(** The [key] nodes of the properties named [name], in order. *)
Definition keys_named (name : string) (props : list elem) : list nat :=
  flat_map (fun p => match p with
                     | Property _ key (Some n) _ => if String.eqb n name then [key] else []
                     | _ => []
                     end) props.

(** Whether some element is not a [Property] (a method or a spread). *)
Definition has_non_property (props : list elem) : bool :=
  existsb (fun p => match p with Property _ _ _ _ => false | _ => true end) props.

(** The last property named [name], as (property id, value). *)
Definition last_named (name : string) (props : list elem) : option (nat * expr) :=
  fold_left (fun acc p => match p with
                          | Property pid _ (Some n) v =>
                              if String.eqb n name then Some (pid, v) else acc
                          | _ => acc
                          end) props None.

(** [r'] extends [r]: the key lists only grow at their end, and the
    [hasUnknown] and [found] flags are never reset. *)
Definition report_le (r r' : report) : Prop :=
  (exists s, suggestNodes r' = suggestNodes r ++ s)
  /\ (exists f, fixNodes r' = fixNodes r ++ f)
  /\ (hasUnknown r = true -> hasUnknown r' = true)
  /\ (found r = true -> found r' = true).

End ValidRuleMeta.

Module NoRestrictedImports.

(** ** no-restricted-imports: [verify] *)

(** The [importKind] of a parsed option, and the kind of a declaration. *)
Inductive optionKind : Type := OType | OValue | OAll.
Inductive declKind : Type := KType | KValue.

Record loc : Type := mkLoc { line : nat; column : nat }.

Inductive lit : Type := LString (s : string) | LNumber (n : nat) | LNull.

(** [node.source]: a literal, or another expression; [None] for an
    [export { a }] without [from]. *)
Inductive source_node : Type :=
| SourceLiteral (value : lit)
| SourceOther.

(** [isStringLiteral], returning the string value when it holds. *)
Definition isStringLiteral (node : option source_node) : bool :=
  match node with
  | Some (SourceLiteral (LString _)) => true
  | _ => false
  end.

Definition string_value (node : option source_node) : option string :=
  match node with
  | Some (SourceLiteral (LString s)) => Some s
  | _ => None
  end.

(** [String.prototype.trim] on the ASCII white space characters (tab, line
    feed, vertical tab, form feed, carriage return, space). *)
Definition is_ws (c : Ascii.ascii) : bool :=
  let n := Ascii.nat_of_ascii c in
  Nat.eqb n 32 || (Nat.leb 9 n && Nat.leb n 13).

Fixpoint trim_start (l : list Ascii.ascii) : list Ascii.ascii :=
  match l with
  | c :: r => if is_ws c then trim_start r else l
  | [] => []
  end.

Definition trim (s : string) : string :=
  string_of_list_ascii
    (rev (trim_start (rev (trim_start (list_ascii_of_string s))))).

Record ParsedPathOption : Type := mkPath {
  path_name : string;
  path_importKind : optionKind;
  (** [importNames]: the [Set] built from a non-empty list, else [null] *)
  path_importNames : option (list string);
  path_customMessage : option string
}.

(** [matcher.ignores] of the [ignore] package is an external collaborator,
    kept as a predicate. *)
Record ParsedPatternGroup : Type := mkGroup {
  matcher_ignores : string -> bool;
  group_importKind : optionKind;
  group_customMessage : option string
}.

Inductive baseMessageId : Type := MPath | MPatterns | MEverything | MImportName.

(** One [context.report] call: node, message id (with the
    [WithCustomMessage] suffix or not), optional [loc], and data. *)
Record diagnostic : Type := mkDiagnostic {
  r_node : nat;
  r_messageId : baseMessageId;
  r_withCustomMessage : bool;
  r_loc : option loc;
  r_importSource : string;
  r_importNames : option string;
  r_importName : option string;
  r_importKindPhrase : string;
  r_customMessage : option string
}.

Definition kind_matches (k : optionKind) (importKind : declKind) : bool :=
  match k, importKind with
  | OAll, _ | OType, KType | OValue, KValue => true
  | _, _ => false
  end.

Definition importKindPhrase (k : optionKind) : string :=
  match k with
  | OType => "type-only import"
  | OValue => "import"
  | OAll => "type-only import and import"
  end.

(** JavaScript truthiness of [restricted.customMessage]. *)
Definition truthy (m : option string) : bool :=
  match m with Some s => negb (String.eqb s "") | None => false end.

(** The local [report] function. *)
Definition report (node : nat) (locs : option (list loc)) (base : baseMessageId)
  (kind : optionKind) (customMessage : option string) (importSource : string)
  (importNames importName : option string) : list diagnostic :=
  let mk l := mkDiagnostic node base (truthy customMessage) l importSource
                importNames importName (importKindPhrase kind) customMessage in
  match locs with
  | Some ls => map (fun l => mk (Some l)) ls
  | None => [mk None]
  end.

(** The [Map<string, SourceLocation[]>] of import names, in insertion order. *)
Fixpoint add_name (m : list (string * list loc)) (name : string) (l : loc)
  : list (string * list loc) :=
  match m with
  | [] => [(name, [l])]
  | (n, ls) :: rest =>
      if String.eqb n name then (n, ls ++ [l]) :: rest else (n, ls) :: add_name rest name l
  end.

Definition group_names (names : list (string * loc)) : list (string * list loc) :=
  fold_left (fun m nl => add_name m (fst nl) (snd nl)) names [].

Fixpoint join (sep : string) (l : list string) : string :=
  match l with
  | [] => ""
  | [x] => x
  | x :: rest => x ++ sep ++ join sep rest
  end.

Definition verify (restrictedPaths : list ParsedPathOption)
  (restrictedPatternGroups : list ParsedPatternGroup) (node : nat)
  (source : option source_node) (importKind : declKind)
  (generateImportNames : list (string * loc)) : list diagnostic :=
  match string_value source with
  | None => []
  | Some raw =>
      let importSource := trim raw in
      let path_reports :=
        match find (fun rp => String.eqb (path_name rp) importSource
                              && kind_matches (path_importKind rp) importKind)
                   restrictedPaths with
        | Some rp =>
            match path_importNames rp with
            | Some restrictedImportNames =>
                flat_map (fun '(name, locs) =>
                  if String.eqb name "*" then
                    report node (Some locs) MEverything (path_importKind rp)
                      (path_customMessage rp) importSource
                      (Some (join "," restrictedImportNames)) None
                  else if existsb (String.eqb name) restrictedImportNames then
                    report node (Some locs) MImportName (path_importKind rp)
                      (path_customMessage rp) importSource None (Some name)
                  else [])
                  (group_names generateImportNames)
            | None =>
                report node None MPath (path_importKind rp) (path_customMessage rp)
                  importSource None None
            end
        | None => []
        end in
      let pattern_reports :=
        flat_map (fun g =>
          if matcher_ignores g importSource && kind_matches (group_importKind g) importKind
          then report node None MPatterns (group_importKind g) (group_customMessage g)
                 importSource None None
          else []) restrictedPatternGroups in
      path_reports ++ pattern_reports
  end.

(** ** The three visitors *)

Inductive specifier : Type :=
| ImportDefaultSpecifier (l : loc)
| ImportNamespaceSpecifier (l : loc)
| ImportSpecifier (imported : string) (l : loc).

Inductive declaration : Type :=
| ImportDeclaration (nid : nat) (source : option source_node) (importKind : declKind)
    (specifiers : list specifier)
| ExportNamedDeclaration (nid : nat) (source : option source_node) (exportKind : declKind)
    (specifiers : list (string * loc))
| ExportAllDeclaration (nid : nat) (source : option source_node) (exportKind : declKind)
    (starToken : loc).

Definition specifier_name (sp : specifier) : string * loc :=
  match sp with
  | ImportDefaultSpecifier l => ("default", l)
  | ImportNamespaceSpecifier l => ("*", l)
  | ImportSpecifier name l => (name, l)
  end.

Definition decl_source (d : declaration) : option source_node :=
  match d with
  | ImportDeclaration _ s _ _ | ExportNamedDeclaration _ s _ _
  | ExportAllDeclaration _ s _ _ => s
  end.

Definition visit (restrictedPaths : list ParsedPathOption)
  (restrictedPatternGroups : list ParsedPatternGroup) (d : declaration)
  : list diagnostic :=
  match d with
  | ImportDeclaration nid source k sps =>
      verify restrictedPaths restrictedPatternGroups nid source k (map specifier_name sps)
  | ExportNamedDeclaration nid source k sps =>
      verify restrictedPaths restrictedPatternGroups nid source k sps
  | ExportAllDeclaration nid source k star =>
      verify restrictedPaths restrictedPatternGroups nid source k [("*", star)]
  end.

(** ** Views of the reports *)



(** The locations at which [name] is imported, in order. *)
Definition occurrences (name : string) (names : list (string * loc)) : list loc :=
  map snd (filter (fun nl => String.eqb (fst nl) name) names).

(** The entry of [name] in the [importNames] map. *)
Definition lookup_name (name : string) (m : list (string * list loc)) : option (list loc) :=
  option_map snd (find (fun p => String.eqb (fst p) name) m).

End NoRestrictedImports.

(** * no-restricted-imports: [parseOptions] *)

Module NoRestrictedImportsOptions.
Import NoRestrictedImports.

(** An entry of [patterns]: a string, or [{ group, importKind?, message? }]. *)
Inductive PatternOption : Type :=
| PatternString (s : string)
| PatternObject (group : list string) (importKind : option optionKind)
    (message : option string).

(** An entry of the options array: a string, or an object. The object is
    a path option or a composite option; each field is [None] when its key
    is absent (the schema admits no other key). *)
Inductive PathOption : Type :=
| PathString (s : string)
| PathObject (name : option string) (importKind : option optionKind)
    (message : option string) (importNames : option (list string))
    (paths : option (list PathOption)) (patterns : option (list PatternOption)).

Definition is_present {A : Type} (o : option A) : bool :=
  match o with Some _ => true | None => false end.

(** [key in option] for an object option. *)
Definition has_key (k : string) (o : PathOption) : bool :=
  match o with
  | PathString _ => false
  | PathObject name importKind message importNames paths patterns =>
      (String.eqb k "name" && is_present name)
      || (String.eqb k "importKind" && is_present importKind)
      || (String.eqb k "message" && is_present message)
      || (String.eqb k "importNames" && is_present importNames)
      || (String.eqb k "paths" && is_present paths)
      || (String.eqb k "patterns" && is_present patterns)
  end.

Definition isCompositeOption (o : PathOption) : bool :=
  match o with
  | PathString _ => false
  | PathObject _ _ _ _ _ _ => has_key "path" o || has_key "patterns" o
  end.

(** [option.paths ?? []] and [option.patterns ?? []]. *)
Definition option_paths (o : PathOption) : list PathOption :=
  match o with
  | PathObject _ _ _ _ (Some ps) _ => ps
  | _ => []
  end.

Definition option_patterns (o : PathOption) : list PatternOption :=
  match o with
  | PathObject _ _ _ _ _ (Some ps) => ps
  | _ => []
  end.

(** A [ParsedPathOption] as [parsePathOption] builds it: [pp_name] is
    [undefined] ([None]) when the object has no [name]; [pp_importNames] is
    [null] or the [Set] of the names; [undefined] and [null] are both
    [None]. *)
Record ParsedPath : Type := mkParsedPath {
  pp_name : option string;
  pp_importKind : optionKind;
  pp_importNames : option (list string);
  pp_customMessage : option string
}.

(** [new Set(list)], in insertion order. *)
Definition set_of_list (l : list string) : list string :=
  fold_left (fun acc x => if existsb (String.eqb x) acc then acc else acc ++ [x]) l [].

Definition parsePathOption (pathOption : PathOption) : ParsedPath :=
  match pathOption with
  | PathString s => mkParsedPath (Some s) OAll None None
  | PathObject name importKind message importNames _ _ =>
      mkParsedPath name (match importKind with Some k => k | None => OAll end)
        (match importNames with
         | Some ((_ :: _) as l) => Some (set_of_list l)
         | _ => None
         end)
        message
  end.

(** The test of [verify]'s [restrictedPaths.find] on a parsed path:
    [restrictedPath.name !== importSource] holds when the name is
    [undefined]. *)
Definition path_matches (rp : ParsedPath) (importSource : string) (importKind : declKind)
  : bool :=
  match pp_name rp with
  | Some n => String.eqb n importSource && kind_matches (pp_importKind rp) importKind
  | None => false
  end.

Section Parse.
(** [ignore().add(list).ignores], from the [ignore] package. *)
Variable ignore_add : list string -> string -> bool.

(** The loop over [option.patterns ?? []]: the string patterns collected,
    and the groups pushed. *)
Definition collect_patterns (pats : list PatternOption)
  (groups : list ParsedPatternGroup) : list string * list ParsedPatternGroup :=
  fold_left (fun acc p =>
    let '(stringPatterns, gs) := acc in
    match p with
    | PatternString s => (stringPatterns ++ [s], gs)
    | PatternObject group importKind message =>
        (stringPatterns,
         gs ++ [mkGroup (ignore_add group)
                  (match importKind with Some k => k | None => OAll end) message])
    end) pats ([], groups).

Definition parse_patterns (pats : list PatternOption) (groups : list ParsedPatternGroup)
  : list ParsedPatternGroup :=
  let '(stringPatterns, gs) := collect_patterns pats groups in
  match stringPatterns with
  | [] => gs
  | _ :: _ => gs ++ [mkGroup (ignore_add stringPatterns) OAll None]
  end.

(** One iteration of [for (const option of options)]. *)
Definition parse_option (acc : list ParsedPath * list ParsedPatternGroup)
  (option : PathOption) : list ParsedPath * list ParsedPatternGroup :=
  let '(restrictedPaths, restrictedPatternGroups) := acc in
  if isCompositeOption option then
    (restrictedPaths ++ map parsePathOption (option_paths option),
     parse_patterns (option_patterns option) restrictedPatternGroups)
  else (restrictedPaths ++ [parsePathOption option], restrictedPatternGroups).

Definition parseOptions (options : list PathOption)
  : list ParsedPath * list ParsedPatternGroup :=
  fold_left parse_option options ([], []).

(** [create] returns no visitor at all when both lists are empty. *)
Definition has_visitors (options : list PathOption) : bool :=
  let '(restrictedPaths, restrictedPatternGroups) := parseOptions options in
  negb (match restrictedPaths, restrictedPatternGroups with
        | [], [] => true
        | _, _ => false
        end).

End Parse.

End NoRestrictedImportsOptions.

(** * Properties of valid-rule-meta *)

Module ValidRuleMetaFacts.
Import ValidRuleMeta.

Lemma programExit_found (sc : scope) (fuel : nat) (ro : ruleObject) (props : list elem) :
  found (report_of ro) = true ->
  iterateProperties sc fuel (meta ro) = Some props ->
  programExit sc fuel (Some ro) =
    Some (fix_check (report_of ro) (fixableProp_of props) (hasSpread_of props)
          ++ suggest_check (report_of ro) (hasSuggestionsProp_of props) (hasSpread_of props)).
Proof.
  intros Hf Hi. unfold programExit. rewrite Hf, Hi. simpl.
  unfold fixableProp_of, hasSuggestionsProp_of, hasSpread_of.
  destruct (scan_meta props None None false) as [[fp hp] hs]. reflexivity.
Qed.

Lemma filter_reports (q : messageId -> bool) (l : list nat) (m : messageId) :
  filter (fun d => q (d_messageId d)) (reports l m) = if q m then reports l m else [].
Proof.
  induction l as [|n l IH]; simpl.
  - destruct (q m); reflexivity.
  - rewrite IH. destruct (q m); reflexivity.
Qed.

Ltac split_matches :=
  repeat match goal with
  | |- context [match ?x with _ => _ end] => destruct x
  end.

Lemma fix_check_positive (r : report) (b : bool) fp hs :
  positive_diags (fix_check (set_hasUnknown b r) fp hs) = positive_diags (fix_check r fp hs).
Proof.
  unfold fix_check, positive_diags. destruct r as [sn fn hu fd]; simpl.
  destruct fn as [|k fn]; [|reflexivity].
  destruct b, hu; simpl; split_matches; reflexivity.
Qed.

Lemma suggest_check_positive (r : report) (b : bool) hp hs :
  positive_diags (suggest_check (set_hasUnknown b r) hp hs)
  = positive_diags (suggest_check r hp hs).
Proof.
  unfold suggest_check, positive_diags. destruct r as [sn fn hu fd]; simpl.
  destruct sn as [|k sn]; [|reflexivity].
  destruct b, hu; simpl; split_matches; reflexivity.
Qed.

Lemma fix_check_unknown_negative (r : report) fp hs :
  hasUnknown r = true -> negative_diags (fix_check r fp hs) = [].
Proof.
  intros Hu. unfold fix_check, negative_diags. rewrite Hu.
  destruct (fixNodes r); [reflexivity|].
  split_matches; try reflexivity;
    rewrite (filter_reports (fun m => negb (is_positive m))); reflexivity.
Qed.

Lemma suggest_check_unknown_negative (r : report) hp hs :
  hasUnknown r = true -> negative_diags (suggest_check r hp hs) = [].
Proof.
  intros Hu. unfold suggest_check, negative_diags. rewrite Hu.
  destruct (suggestNodes r); [reflexivity|].
  split_matches; try reflexivity;
    rewrite (filter_reports (fun m => negb (is_positive m))); reflexivity.
Qed.

(** ** Fuel monotonicity of the generators *)

Lemma flatten_S sc f e :
  flattenExpressions sc (S f) e =
  match e with
  | Identifier _ name =>
      match resolve_const sc name with
      | Some init => flattenExpressions sc f init
      | None => Some [e]
      end
  | ConditionalExpression _ _ consequent alternate =>
      match flattenExpressions sc f consequent with
      | Some l1 =>
          match flattenExpressions sc f alternate with
          | Some l2 => Some (l1 ++ l2)
          | None => None
          end
      | None => None
      end
  | _ => Some [e]
  end.
Proof. destruct e; reflexivity. Qed.

Lemma flatten_mono sc f e l :
  flattenExpressions sc f e = Some l -> flattenExpressions sc (S f) e = Some l.
Proof.
  revert e l. induction f as [|f IH]; intros e l H; [discriminate|].
  rewrite flatten_S in H |- *.
  destruct e as [n name | n v | n t c a | n ps' | n ps' | n ps' | n o q | n c' args | n];
    try exact H.
  - destruct (resolve_const sc name); [apply IH|]; exact H.
  - destruct (flattenExpressions sc f c) as [l1|] eqn:E1; [|discriminate].
    destruct (flattenExpressions sc f a) as [l2|] eqn:E2; [|discriminate].
    rewrite (IH _ _ E1), (IH _ _ E2). exact H.
Qed.

Lemma flatten_mono_le sc f f' e l :
  f <= f' -> flattenExpressions sc f e = Some l -> flattenExpressions sc f' e = Some l.
Proof. induction 1; auto using flatten_mono. Qed.

Lemma walk_flattened_mono (w1 w2 : list elem -> option (list elem)) :
  (forall ps y, w1 ps = Some y -> w2 ps = Some y) ->
  forall es r, walk_flattened w1 es = Some r -> walk_flattened w2 es = Some r.
Proof.
  intros Hw es. induction es as [|e es IH]; intros r H; [exact H|].
  destruct e as [n name | n v | n t c a | n ps' | n ps' | n ps' | n o q | n c' args | n]; simpl in H |- *;
    try (destruct (walk_flattened w1 es) as [[zs u]|] eqn:E in H; [|discriminate];
         rewrite (IH _ E); exact H).
  destruct (w1 ps') as [ys|] eqn:E1; [|discriminate]. rewrite (Hw _ _ E1).
  destruct (walk_flattened w1 es) as [[zs u]|] eqn:E in H; [|discriminate].
  rewrite (IH _ E). exact H.
Qed.

Lemma walk_properties_mono (w1 w2 : list elem -> option (list elem))
  (f1 f2 : expr -> option (list expr)) :
  (forall ps y, w1 ps = Some y -> w2 ps = Some y) ->
  (forall e l, f1 e = Some l -> f2 e = Some l) ->
  forall ps l, walk_properties w1 f1 ps = Some l -> walk_properties w2 f2 ps = Some l.
Proof.
  intros Hw Hf ps. induction ps as [|p ps IH]; intros l H; [exact H|].
  destruct p as [n key pn v | n key pn | n arg]; simpl in H |- *;
    try (destruct (walk_properties w1 f1 ps) as [zs|] eqn:E in H; [|discriminate];
         rewrite (IH _ E); exact H).
  destruct (f1 arg) as [es|] eqn:E1; [|discriminate]. rewrite (Hf _ _ E1).
  destruct (walk_flattened w1 es) as [[ys u]|] eqn:E2; [|discriminate].
  rewrite (walk_flattened_mono _ _ Hw _ _ E2).
  destruct (walk_properties w1 f1 ps) as [zs|] eqn:E3 in H; [|discriminate].
  rewrite (IH _ E3). exact H.
Qed.

Lemma iterate_mono sc f ps l :
  iterateProperties sc f ps = Some l -> iterateProperties sc (S f) ps = Some l.
Proof.
  revert ps l. induction f as [|f IH]; intros ps l H; [discriminate|].
  change (walk_properties (iterateProperties sc (S f)) (flattenExpressions sc (S f)) ps
          = Some l).
  apply (walk_properties_mono (iterateProperties sc f) _ (flattenExpressions sc f));
    [exact IH | apply flatten_mono | exact H].
Qed.

Lemma iterate_mono_le sc f f' ps l :
  f <= f' -> iterateProperties sc f ps = Some l -> iterateProperties sc f' ps = Some l.
Proof. induction 1; auto using iterate_mono. Qed.

Lemma yields_fuel sc e l :
  yields sc e l -> forall F, exists f, F <= f /\ flattenExpressions sc f e = Some l.
Proof.
  intros [f Hf] F. exists (max F f). split; [lia|].
  apply (flatten_mono_le _ f); [lia | exact Hf].
Qed.

Lemma walks_fuel sc ps l :
  walks sc ps l -> forall F, exists f, F <= f /\ iterateProperties sc f ps = Some l.
Proof.
  intros [f Hf] F. exists (max F f). split; [lia|].
  apply (iterate_mono_le _ f); [lia | exact Hf].
Qed.

Lemma walks_common_fuel sc pss yss :
  Forall2 (walks sc) pss yss ->
  exists F, forall f, F <= f -> Forall2 (fun ps y => iterateProperties sc f ps = Some y) pss yss.
Proof.
  induction 1 as [|ps y pss yss Hw _ [F IH]].
  - exists 0. intros; constructor.
  - destruct Hw as [f0 H0]. exists (max f0 F). intros f Hf. constructor.
    + apply (iterate_mono_le _ f0); [lia | exact H0].
    + apply IH. lia.
Qed.

Lemma walk_flattened_spec (w : list elem -> option (list elem)) es ys u :
  walk_flattened w es = Some (ys, u) ->
  exists yss, Forall2 (fun ps y => w ps = Some y) (objects_of es) yss
              /\ ys = concat yss
              /\ u = existsb (fun e => negb (is_object e)) es.
Proof.
  revert ys u. induction es as [|e es IH]; intros ys u H.
  - injection H as <- <-. exists []. repeat split; constructor.
  - destruct e as [n name | n v | n t c a | n ps' | n ps' | n ps' | n o q | n c' args | n]; simpl in H |- *;
      try (destruct (walk_flattened w es) as [[zs u']|] eqn:E in H; [|discriminate];
           injection H as <- <-; destruct (IH _ _ E) as [yss [H1 [H2 _]]];
           exists yss; repeat split; assumption).
    destruct (w ps') as [y|] eqn:E1; [|discriminate].
    destruct (walk_flattened w es) as [[zs u']|] eqn:E in H; [|discriminate].
    injection H as <- <-. destruct (IH _ _ E) as [yss [H1 [H2 H3]]].
    exists (y :: yss). repeat split; [constructor; assumption | simpl; congruence | exact H3].
Qed.

Lemma walk_flattened_complete (w : list elem -> option (list elem)) es yss :
  Forall2 (fun ps y => w ps = Some y) (objects_of es) yss ->
  walk_flattened w es = Some (concat yss, existsb (fun e => negb (is_object e)) es).
Proof.
  revert yss. induction es as [|e es IH]; intros yss H.
  - inversion H. reflexivity.
  - destruct e as [n name | n v | n t c a | n ps' | n ps' | n ps' | n o q | n c' args | n]; simpl in H |- *; try (rewrite (IH _ H); reflexivity).
    inversion H as [|ps y pss yss' Hy Hrest]; subst.
    rewrite Hy, (IH _ Hrest). reflexivity.
Qed.

(** C6: what [flattenExpressions] yields, at whatever fuel it finishes:
    an identifier bound by a single [const] declaration with an initializer
    yields the flattening of the initializer; a conditional expression
    yields the flattening of its consequent followed by that of its
    alternate; any other node yields itself, once. *)
Theorem flattenExpressions_shapes (sc : scope) :
  (forall n name init l, resolve_const sc name = Some init ->
     (yields sc (Identifier n name) l <-> yields sc init l))
  /\ (forall n t c a l,
        yields sc (ConditionalExpression n t c a) l <->
        exists l1 l2, yields sc c l1 /\ yields sc a l2 /\ l = l1 ++ l2)
  /\ (forall e l,
        (forall n name, e = Identifier n name -> resolve_const sc name = None) ->
        (forall n t c a, e <> ConditionalExpression n t c a) ->
        (yields sc e l <-> l = [e])).
Proof.
  split; [|split].
  - intros n name init l Hr. split.
    + intros [[|f] Hf]; [discriminate|]. rewrite flatten_S, Hr in Hf. exists f; exact Hf.
    + intros [f Hf]. exists (S f). rewrite flatten_S, Hr. exact Hf.
  - intros n t c a l. split.
    + intros [[|f] Hf]; [discriminate|]. rewrite flatten_S in Hf.
      destruct (flattenExpressions sc f c) as [l1|] eqn:E1; [|discriminate].
      destruct (flattenExpressions sc f a) as [l2|] eqn:E2; [|discriminate].
      injection Hf as <-. exists l1, l2.
      split; [exists f; exact E1 | split; [exists f; exact E2 | reflexivity]].
    + intros (l1 & l2 & [f1 H1] & [f2 H2] & ->). exists (S (max f1 f2)).
      rewrite flatten_S.
      rewrite (flatten_mono_le _ f1 (max f1 f2) _ _ ltac:(lia) H1).
      rewrite (flatten_mono_le _ f2 (max f1 f2) _ _ ltac:(lia) H2). reflexivity.
  - intros e l Hid Hc. split.
    + intros [[|f] Hf]; [discriminate|]. rewrite flatten_S in Hf.
      destruct e as [n name | n v | n t c' a' | n ps' | n ps' | n ps' | n o q | n c' args | n];
        try (injection Hf as <-; reflexivity).
      * rewrite (Hid n name eq_refl) in Hf. injection Hf as <-. reflexivity.
      * exfalso. exact (Hc n t c' a' eq_refl).
    + intros ->. exists 1. rewrite flatten_S.
      destruct e as [n name | n v | n t c' a' | n ps' | n ps' | n ps' | n o q | n c' args | n]; try reflexivity.
      * rewrite (Hid n name eq_refl). reflexivity.
      * exfalso. exact (Hc n t c' a' eq_refl).
Qed.

Lemma flattenExpressions_shapes_witness :
  (yields (file_scope 7 [("ruleMeta", ruleMeta_cond)]) (Identifier 74 "ruleMeta")
     [ObjectExpression 72 []; Identifier 73 "other"]
   <-> yields (file_scope 7 [("ruleMeta", ruleMeta_cond)]) ruleMeta_cond
         [ObjectExpression 72 []; Identifier 73 "other"])
  /\ (yields (file_scope 7 []) (Identifier 73 "other") [Identifier 73 "other"]
      <-> [Identifier 73 "other"] = [Identifier 73 "other"]).
Proof.
  split.
  - apply (proj1 (flattenExpressions_shapes _)). reflexivity.
  - apply (proj2 (proj2 (flattenExpressions_shapes _))).
    + intros n name H. injection H as <- <-. reflexivity.
    + intros n t c a H. discriminate.
Defined.

(** C7: what [iterateProperties] yields, at whatever fuel it finishes:
    ordinary properties and methods are yielded as they are; a spread
    element yields the walks of the object-expression shapes of the
    flattening of its argument, followed by the spread element itself once
    exactly when some shape of the flattening is not an object
    expression. *)
Theorem iterateProperties_shapes (sc : scope) :
  (forall l, walks sc [] l <-> l = [])
  /\ (forall p rest l, is_spread p = false ->
        (walks sc (p :: rest) l <-> exists zs, walks sc rest zs /\ l = p :: zs))
  /\ (forall n arg rest l,
        walks sc (SpreadElement n arg :: rest) l <->
        exists es yss zs,
          yields sc arg es
          /\ Forall2 (walks sc) (objects_of es) yss
          /\ walks sc rest zs
          /\ l = concat yss
                 ++ (if existsb (fun e => negb (is_object e)) es
                     then [SpreadElement n arg] else [])
                 ++ zs).
Proof.
  split; [|split].
  - intros l. split.
    + intros [[|f] H]; [discriminate|]. injection H as <-. reflexivity.
    + intros ->. exists 1. reflexivity.
  - intros p rest l Hp. split.
    + intros [[|f] H]; [discriminate|].
      change (walk_properties (iterateProperties sc f) (flattenExpressions sc f) (p :: rest)
              = Some l) in H.
      destruct p as [n key pn v | n key pn | n arg]; [| |discriminate]; simpl in H;
        destruct (walk_properties (iterateProperties sc f) (flattenExpressions sc f) rest)
          as [zs|] eqn:E in H; try discriminate;
        injection H as <-; exists zs; split; [exists (S f); exact E | reflexivity|
                                              exists (S f); exact E | reflexivity].
    + intros (zs & [[|f] Hf] & ->); [discriminate|]. exists (S f).
      change (walk_properties (iterateProperties sc f) (flattenExpressions sc f) rest
              = Some zs) in Hf.
      change (walk_properties (iterateProperties sc f) (flattenExpressions sc f) (p :: rest)
              = Some (p :: zs)).
      destruct p as [n key pn v | n key pn | n arg]; [| |discriminate]; simpl;
        rewrite Hf; reflexivity.
  - intros n arg rest l. split.
    + intros [[|f] H]; [discriminate|].
      change (walk_properties (iterateProperties sc f) (flattenExpressions sc f)
                (SpreadElement n arg :: rest) = Some l) in H.
      simpl in H.
      destruct (flattenExpressions sc f arg) as [es|] eqn:E1 in H; [|discriminate].
      destruct (walk_flattened (iterateProperties sc f) es) as [[ys u]|] eqn:E2 in H;
        [|discriminate].
      destruct (walk_properties (iterateProperties sc f) (flattenExpressions sc f) rest)
        as [zs|] eqn:E3 in H; [|discriminate].
      injection H as <-.
      destruct (walk_flattened_spec _ _ _ _ E2) as (yss & HF & -> & ->).
      exists es, yss, zs. split; [exists f; exact E1|]. split.
      * apply (Forall2_impl (R1 := fun ps y => iterateProperties sc f ps = Some y));
          [intros ps y Hy; exists f; exact Hy | exact HF].
      * split; [exists (S f); exact E3 | reflexivity].
    + intros (es & yss & zs & [fa Ha] & HF & [fr Hr] & ->).
      destruct (walks_common_fuel _ _ _ HF) as [Fo HFo].
      set (F := max fa (max Fo fr)). exists (S F).
      change (walk_properties (iterateProperties sc F) (flattenExpressions sc F)
                (SpreadElement n arg :: rest)
              = Some (concat yss
                      ++ (if existsb (fun e => negb (is_object e)) es
                          then [SpreadElement n arg] else []) ++ zs)).
      assert (Hr' : walk_properties (iterateProperties sc F) (flattenExpressions sc F) rest
                    = Some zs).
      { change (iterateProperties sc (S F) rest = Some zs).
        apply (iterate_mono_le _ fr); [unfold F; lia | exact Hr]. }
      simpl.
      rewrite (flatten_mono_le _ fa F _ _ ltac:(unfold F; lia) Ha).
      rewrite (walk_flattened_complete _ _ _ (HFo F ltac:(unfold F; lia))).
      rewrite Hr'. reflexivity.
Qed.

Lemma iterateProperties_shapes_witness :
  walks (file_scope 7 []) (fixable_code :: []) [fixable_code]
  <-> exists zs, walks (file_scope 7 []) [] zs /\ [fixable_code] = fixable_code :: zs.
Proof.
  apply (proj1 (proj2 (iterateProperties_shapes _))). reflexivity.
Defined.

(** ** Introduction rules for [yields] and [walks] *)

Lemma yields_resolved sc n x init l :
  resolve_const sc x = Some init -> yields sc init l -> yields sc (Identifier n x) l.
Proof. intros R [f Hf]. exists (S f). rewrite flatten_S, R. exact Hf. Qed.

Lemma yields_cond sc n t c a l1 l2 :
  yields sc c l1 -> yields sc a l2 -> yields sc (ConditionalExpression n t c a) (l1 ++ l2).
Proof.
  intros [f1 H1] [f2 H2]. exists (S (max f1 f2)). rewrite flatten_S.
  rewrite (flatten_mono_le _ f1 (max f1 f2) _ _ ltac:(lia) H1).
  rewrite (flatten_mono_le _ f2 (max f1 f2) _ _ ltac:(lia) H2). reflexivity.
Qed.

Lemma walks_nil sc : walks sc [] [].
Proof. exists 1. reflexivity. Qed.

Lemma walks_cons sc p rest zs :
  is_spread p = false -> walks sc rest zs -> walks sc (p :: rest) (p :: zs).
Proof.
  intros Hp [[|f] Hf]; [discriminate|]. exists (S f).
  change (walk_properties (iterateProperties sc f) (flattenExpressions sc f) rest
          = Some zs) in Hf.
  change (walk_properties (iterateProperties sc f) (flattenExpressions sc f) (p :: rest)
          = Some (p :: zs)).
  destruct p as [n key pn v | n key pn | n arg]; [| |discriminate]; simpl;
    rewrite Hf; reflexivity.
Qed.

Lemma walks_spread sc n arg rest es yss zs :
  yields sc arg es -> Forall2 (walks sc) (objects_of es) yss -> walks sc rest zs ->
  walks sc (SpreadElement n arg :: rest)
    (concat yss ++ (if existsb (fun e => negb (is_object e)) es
                    then [SpreadElement n arg] else []) ++ zs).
Proof.
  intros [fa Ha] HF [fr Hr].
  destruct (walks_common_fuel _ _ _ HF) as [Fo HFo].
  set (F := max fa (max Fo fr)). exists (S F).
  change (walk_properties (iterateProperties sc F) (flattenExpressions sc F)
            (SpreadElement n arg :: rest)
          = Some (concat yss
                  ++ (if existsb (fun e => negb (is_object e)) es
                      then [SpreadElement n arg] else []) ++ zs)).
  assert (Hr' : walk_properties (iterateProperties sc F) (flattenExpressions sc F) rest
                = Some zs).
  { change (iterateProperties sc (S F) rest = Some zs).
    apply (iterate_mono_le _ fr); [unfold F; lia | exact Hr]. }
  simpl.
  rewrite (flatten_mono_le _ fa F _ _ ltac:(unfold F; lia) Ha).
  rewrite (walk_flattened_complete _ _ _ (HFo F ltac:(unfold F; lia))).
  rewrite Hr'. reflexivity.
Qed.

(** ** Termination of the generators on acyclic constant chains *)

Lemma heads_incl_deps e : incl (heads e) (deps e).
Proof.
  induction e; simpl; try apply incl_refl; try apply incl_nil_l.
  apply incl_app_app; assumption.
Qed.

Lemma in_objects_of es ps : In ps (objects_of es) -> exists n, In (ObjectExpression n ps) es.
Proof.
  induction es as [|e es IH]; simpl; [intros []|].
  destruct e; simpl; intros H;
    try (destruct (IH H) as [m Hm]; exists m; right; exact Hm).
  destruct H as [<- | H]; [exists nid; left; reflexivity|].
  destruct (IH H) as [m Hm]; exists m; right; exact Hm.
Qed.

Lemma Forall2_from_exists {A B : Type} (R : A -> B -> Prop) (l : list A) :
  (forall a, In a l -> exists b, R a b) -> exists lb, Forall2 R l lb.
Proof.
  induction l as [|a l IH]; intros H; [exists []; constructor|].
  destruct (H a (or_introl eq_refl)) as [b Hb].
  destruct IH as [lb Hlb]; [intros a' Ha'; apply H; right; exact Ha'|].
  exists (b :: lb). constructor; assumption.
Qed.

Lemma rank_bound (rank : string -> nat) (l : list string) y :
  In y l -> rank y < S (fold_right (fun x m => max (rank x) m) 0 l).
Proof.
  induction l as [|x l IH]; simpl; [intros []|].
  intros [<- | H]; [lia|]. specialize (IH H). lia.
Qed.

Section Acyclic.
Variable sc : scope.
Variable rank : string -> nat.
Hypothesis ranked : const_chains_ranked sc rank.

(** Every shape a flattening yields is a branch of the expression itself,
    or comes from the initializer of a name it resolved, and then depends
    only on names of smaller rank. *)
Lemma flatten_origin f e es :
  flattenExpressions sc f e = Some es ->
  forall o, In o es ->
    (expr_size o <= expr_size e /\ incl (deps o) (deps e))
    \/ (exists x, In x (heads e) /\ forall y, In y (deps o) -> rank y < rank x).
Proof.
  revert e es. induction f as [|f IH]; intros e es H o Ho; [discriminate|].
  rewrite flatten_S in H.
  destruct e as [n name | n v | n t c a | n ps' | n ps' | n ps' | n ob q | n c' args | n];
    try (injection H as <-; destruct Ho as [<- | []]; left; split; [lia | apply incl_refl]).
  - destruct (resolve_const sc name) as [init|] eqn:R.
    + right. exists name. split; [left; reflexivity|].
      destruct (IH _ _ H o Ho) as [[_ Hinc] | [x [Hx Hy]]].
      * intros y Hy. apply (ranked _ _ R). apply Hinc. exact Hy.
      * intros y Hy'. specialize (Hy y Hy').
        assert (rank x < rank name) by (apply (ranked _ _ R); apply heads_incl_deps; exact Hx).
        lia.
    + injection H as <-. destruct Ho as [<- | []]. left. split; [lia | apply incl_refl].
  - destruct (flattenExpressions sc f c) as [l1|] eqn:E1; [|discriminate].
    destruct (flattenExpressions sc f a) as [l2|] eqn:E2; [|discriminate].
    injection H as <-. apply in_app_or in Ho. simpl.
    destruct Ho as [Ho | Ho].
    + destruct (IH _ _ E1 o Ho) as [[Hs Hi] | [x [Hx Hy]]].
      * left. split; [lia | apply incl_appl; exact Hi].
      * right. exists x. split; [apply in_or_app; left; exact Hx | exact Hy].
    + destruct (IH _ _ E2 o Ho) as [[Hs Hi] | [x [Hx Hy]]].
      * left. split; [lia | apply incl_appr; exact Hi].
      * right. exists x. split; [apply in_or_app; right; exact Hx | exact Hy].
Qed.

Lemma flatten_terminates k :
  forall e, (forall y, In y (heads e) -> rank y < k) -> exists l, yields sc e l.
Proof.
  induction k as [|k IHk]; intros e; induction e as [n name | n v | n t IHt c IHc a IHa | n ps' | n ps' | n ps' | n o q | n c' args | n]; intros Hb;
    try (exists [ObjectExpression n ps']; exists 1; reflexivity);
    try (eexists; exists 1; reflexivity).
  - exfalso. specialize (Hb name (or_introl eq_refl)). lia.
  - destruct IHc as [l1 H1]; [intros y Hy; apply Hb; apply in_or_app; left; exact Hy|].
    destruct IHa as [l2 H2]; [intros y Hy; apply Hb; apply in_or_app; right; exact Hy|].
    exists (l1 ++ l2). apply yields_cond; assumption.
  - destruct (resolve_const sc name) as [init|] eqn:R.
    + destruct (IHk init) as [l Hl].
      * intros y Hy. specialize (Hb name (or_introl eq_refl)).
        assert (rank y < rank name) by (apply (ranked _ _ R); apply heads_incl_deps; exact Hy).
        lia.
      * exists l. apply (yields_resolved _ _ _ init); assumption.
    + exists [Identifier n name]. exists 1. rewrite flatten_S, R. reflexivity.
  - destruct IHc as [l1 H1]; [intros y Hy; apply Hb; apply in_or_app; left; exact Hy|].
    destruct IHa as [l2 H2]; [intros y Hy; apply Hb; apply in_or_app; right; exact Hy|].
    exists (l1 ++ l2). apply yields_cond; assumption.
Qed.

Definition walks_bounded (n : nat) : Prop :=
  forall ps, (forall y, In y (deps_elems ps) -> rank y < n) -> exists l, walks sc ps l.

Lemma walks_step n : (forall m, m < n -> walks_bounded m) -> walks_bounded n.
Proof.
  intros IHm.
  assert (H : forall s ps, elems_size ps <= s ->
                (forall y, In y (deps_elems ps) -> rank y < n) -> exists l, walks sc ps l).
  2: { intros ps. apply (H (elems_size ps)). lia. }
  induction s as [|s IHs]; intros ps Hs Hb.
  - destruct ps as [|p ps]; [exists []; apply walks_nil|].
    destruct p; simpl in Hs; lia.
  - destruct ps as [|p rest]; [exists []; apply walks_nil|].
    destruct p as [n' key pn v | n' key pn | n' arg].
    + simpl in Hs, Hb. destruct (IHs rest ltac:(lia) Hb) as [zs Hz].
      eexists. apply walks_cons; [reflexivity | exact Hz].
    + simpl in Hs, Hb. destruct (IHs rest ltac:(lia) Hb) as [zs Hz].
      eexists. apply walks_cons; [reflexivity | exact Hz].
    + simpl in Hs, Hb.
      destruct (flatten_terminates n arg) as [es [f Hf]].
      { intros y Hy. apply Hb. apply in_or_app. left. apply heads_incl_deps. exact Hy. }
      assert (Hobj : forall ps', In ps' (objects_of es) -> exists y, walks sc ps' y).
      { intros ps' Hin. destruct (in_objects_of _ _ Hin) as [m Hm].
        destruct (flatten_origin _ _ _ Hf _ Hm) as [[Hsz Hinc] | [x [Hx Hy]]].
        - apply (IHs ps').
          + change (expr_size (ObjectExpression m ps')) with (S (elems_size ps')) in Hsz.
            lia.
          + intros y Hy. apply Hb. apply in_or_app. left. apply Hinc. exact Hy.
        - assert (Hx' : rank x < n).
          { apply Hb. apply in_or_app. left. apply heads_incl_deps. exact Hx. }
          apply (IHm (rank x) Hx'). exact Hy. }
      destruct (Forall2_from_exists _ _ Hobj) as [yss Hyss].
      destruct (IHs rest ltac:(lia)) as [zs Hz].
      { intros y Hy. apply Hb. apply in_or_app. right. exact Hy. }
      eexists. apply (walks_spread _ _ _ _ es yss zs); [exists f; exact Hf | exact Hyss | exact Hz].
Qed.

Lemma walks_terminate n : walks_bounded n.
Proof.
  assert (H : forall k m, m <= k -> walks_bounded m).
  { induction k as [|k IHk]; intros m Hm; apply walks_step; intros j Hj.
    - lia.
    - apply IHk. lia. }
  apply (H n). lia.
Qed.

End Acyclic.

(** C2: the flag [hasUnknown] of the report findings does not change the
    positive-direction diagnostics ([shouldBeFixable],
    [shouldBeSuggestable]) of [Program:exit], whatever its value; when it is
    set, no negative-direction diagnostic ([shouldNotBeFixable],
    [shouldNotBeSuggestable]) is reported. *)
Theorem hasUnknown_suppresses_only_negative (sc : scope) (fuel : nat)
  (ro : ruleObject) (b : bool) :
  option_map positive_diags
    (programExit sc fuel (Some (set_report ro (set_hasUnknown b (report_of ro)))))
  = option_map positive_diags (programExit sc fuel (Some ro))
  /\ match programExit sc fuel (Some (set_report ro (set_hasUnknown true (report_of ro)))) with
     | Some ds => negative_diags ds = []
     | None => True
     end.
Proof.
  unfold programExit; simpl.
  destruct (found (report_of ro)) eqn:Hf; simpl; [|split; reflexivity].
  destruct (iterateProperties sc fuel (meta ro)) as [props|]; [|split; [reflexivity|exact I]].
  destruct (scan_meta props None None false) as [[fp hp] hs]. split.
  - simpl. f_equal. unfold positive_diags in *. rewrite !filter_app.
    fold (positive_diags (fix_check (set_hasUnknown b (report_of ro)) fp hs)).
    fold (positive_diags (suggest_check (set_hasUnknown b (report_of ro)) hp hs)).
    rewrite fix_check_positive, suggest_check_positive. reflexivity.
  - unfold negative_diags. rewrite filter_app.
    fold (negative_diags (fix_check (set_hasUnknown true (report_of ro)) fp hs)).
    fold (negative_diags (suggest_check (set_hasUnknown true (report_of ro)) hp hs)).
    rewrite fix_check_unknown_negative, suggest_check_unknown_negative; reflexivity.
Qed.

Lemma suggest_check_no_fix_messages (r : report) hp hs :
  with_message shouldNotBeFixable (suggest_check r hp hs) = []
  /\ with_message shouldBeFixable (suggest_check r hp hs) = [].
Proof.
  unfold suggest_check, with_message.
  split; split_matches; try reflexivity;
    rewrite (filter_reports (fun m => messageId_eqb m _)); reflexivity.
Qed.

(** Reachable states: a rule object whose findings are non-empty has had a
    report call matched. *)
Definition findings_inv (st : option ruleObject) : Prop :=
  match st with
  | None => True
  | Some ro =>
      found (report_of ro) = true
      \/ (fixNodes (report_of ro) = [] /\ suggestNodes (report_of ro) = []
          /\ hasUnknown (report_of ro) = false)
  end.

Lemma found_collect_descriptor (props : list elem) (r : report) :
  found (collect_descriptor props r) = found r.
Proof.
  revert r. induction props as [|p props IH]; intros r; [reflexivity|].
  destruct p as [nid key [name|] v | nid key pn | nid arg]; simpl;
    try (rewrite IH; reflexivity).
  destruct (String.eqb name "suggest"); [rewrite IH; reflexivity|].
  destruct (String.eqb name "fix"); rewrite IH; reflexivity.
Qed.

Lemma visitObjectExpression_inv (st : option ruleObject) (ps : list elem) :
  findings_inv st -> findings_inv (visitObjectExpression st ps).
Proof.
  intros H. destruct st as [ro|]; [exact H|]. simpl.
  destruct (match_rule_object ps) as [[mps cid]|]; simpl; auto.
Qed.

Lemma visitCallExpression_inv sc fuel st callee args st' :
  visitCallExpression sc fuel st callee args = Some st' ->
  findings_inv st -> findings_inv st'.
Proof.
  intros Hv H. destruct st as [ro|]; simpl in Hv; [|injection Hv as <-; exact H].
  destruct (is_context_report sc callee (context ro) && Nat.eqb (length args) 1);
    [|injection Hv as <-; exact H].
  destruct args as [|a [|a' args]];
    [injection Hv as <-; left; reflexivity| |
     destruct a; injection Hv as <-; left; reflexivity].
  destruct a; try (injection Hv as <-; left; reflexivity).
  destruct (iterateProperties sc fuel properties) as [props|]; [|discriminate].
  injection Hv as <-. left. simpl. rewrite found_collect_descriptor. reflexivity.
Qed.

Lemma run_inv fuel evs st st' :
  run fuel evs st = Some st' -> findings_inv st -> findings_inv st'.
Proof.
  revert st. induction evs as [|ev evs IH]; intros st Hr H; simpl in Hr.
  - injection Hr as <-. exact H.
  - destruct ev as [ps | sc callee args].
    + apply (IH _ Hr). apply visitObjectExpression_inv. exact H.
    + destruct (visitCallExpression sc fuel st callee args) as [st1|] eqn:Hv;
        [|discriminate].
      apply (IH _ Hr). eapply visitCallExpression_inv; eassumption.
Qed.

Lemma run_fix_found fuel evs ro :
  run fuel evs None = Some (Some ro) -> fixNodes (report_of ro) <> [] ->
  found (report_of ro) = true.
Proof.
  intros Hr Hn. destruct (run_inv _ _ _ _ Hr I) as [Hf | [Hf _]]; [exact Hf|].
  contradiction.
Qed.

(** C1 (as amended): once a report call of the rule has been matched
    ([found]), if no report site passes [fix], no report call was
    shape-unknown and the meta's [fixable] is a string literal, the file gets
    exactly one [shouldNotBeFixable] diagnostic, on the [fixable] property. *)
Theorem shouldNotBeFixable_when_report_found fuel evs ro sc props pid n s :
  run fuel evs None = Some (Some ro) ->
  found (report_of ro) = true ->
  fixNodes (report_of ro) = [] ->
  hasUnknown (report_of ro) = false ->
  iterateProperties sc fuel (meta ro) = Some props ->
  fixableProp_of props = Some (pid, Literal n (LString s)) ->
  exists ds, lint fuel evs sc = Some ds
             /\ with_message shouldNotBeFixable ds = [mkDiag pid shouldNotBeFixable].
Proof.
  intros Hr Hf Hn Hu Hi Hp. unfold lint. rewrite Hr.
  rewrite (programExit_found _ _ _ _ Hf Hi). eexists. split; [reflexivity|].
  unfold with_message. rewrite filter_app.
  fold (with_message shouldNotBeFixable
          (suggest_check (report_of ro) (hasSuggestionsProp_of props) (hasSpread_of props))).
  rewrite (proj1 (suggest_check_no_fix_messages _ _ _)), app_nil_r.
  unfold fix_check. rewrite Hn, Hu, Hp. reflexivity.
Qed.

Lemma shouldNotBeFixable_when_report_found_witness :
  exists ds, lint 10 (rule_file (file_scope 7 []) [fixable_code] node_messageId) (file_scope 7 [])
             = Some ds
             /\ with_message shouldNotBeFixable ds = [mkDiag 40 shouldNotBeFixable].
Proof.
  apply (shouldNotBeFixable_when_report_found 10 _
           (mkRuleObject [fixable_code] 7 (mkReport [] [] false true)) _
           [fixable_code] 40 42 "code"); vm_compute; reflexivity.
Defined.

(** C1, as stated, fails: a rule object with [meta: { fixable: 'code' }]
    and no [context.report] call at all has no fix site, no shape-unknown
    call and a string [fixable], yet gets no diagnostic, because
    [Program:exit] returns early when no report call was [found]. *)
Lemma fixable_without_report_call_not_reported :
  run 10 (rule_file_no_report [fixable_code]) None
    = Some (Some (mkRuleObject [fixable_code] 7 empty_report))
  /\ fixNodes empty_report = [] /\ hasUnknown empty_report = false
  /\ iterateProperties (file_scope 7 []) 10 [fixable_code] = Some [fixable_code]
  /\ fixableProp_of [fixable_code] = Some (40, Literal 42 (LString "code"))
  /\ lint 10 (rule_file_no_report [fixable_code]) (file_scope 7 []) = Some [].
Proof. repeat split; vm_compute; reflexivity. Qed.

(** C3: when at least one report site passes [fix], the meta has no
    unresolved spread, and [fixable] is absent or is the literal [null] or
    the identifier [undefined], the [shouldBeFixable] diagnostics of the file
    are exactly one per [fix] key collected, anchored on that key. *)
Theorem shouldBeFixable_per_fix_site fuel evs ro sc props :
  run fuel evs None = Some (Some ro) ->
  fixNodes (report_of ro) <> [] ->
  iterateProperties sc fuel (meta ro) = Some props ->
  hasSpread_of props = false ->
  (fixableProp_of props = None
   \/ exists pid n, fixableProp_of props = Some (pid, Literal n LNull)
                    \/ fixableProp_of props = Some (pid, Identifier n "undefined")) ->
  exists ds, lint fuel evs sc = Some ds
             /\ with_message shouldBeFixable ds
                = reports (fixNodes (report_of ro)) shouldBeFixable.
Proof.
  intros Hr Hn Hi Hs Hp. unfold lint. rewrite Hr.
  rewrite (programExit_found _ _ _ _ (run_fix_found _ _ _ Hr Hn) Hi).
  eexists. split; [reflexivity|].
  unfold with_message. rewrite filter_app.
  fold (with_message shouldBeFixable
          (suggest_check (report_of ro) (hasSuggestionsProp_of props) (hasSpread_of props))).
  rewrite (proj2 (suggest_check_no_fix_messages _ _ _)), app_nil_r.
  unfold fix_check. rewrite Hs.
  destruct (fixNodes (report_of ro)) as [|k ks] eqn:E; [contradiction|].
  assert (Hfix : forall l, filter (fun d => messageId_eqb (d_messageId d) shouldBeFixable)
                             (reports l shouldBeFixable) = reports l shouldBeFixable)
    by (intros l; rewrite (filter_reports (fun m => messageId_eqb m shouldBeFixable)); reflexivity).
  destruct Hp as [Hp | [pid [n [Hp | Hp]]]]; rewrite Hp; simpl is_null_or_undefined;
    rewrite <- E; apply Hfix.
Qed.

Lemma shouldBeFixable_per_fix_site_witness :
  exists ds, lint 10 (rule_file (file_scope 7 []) [] (node_messageId ++ [fix_prop]))
                  (file_scope 7 []) = Some ds
             /\ with_message shouldBeFixable ds = reports [27] shouldBeFixable.
Proof.
  apply (shouldBeFixable_per_fix_site 10 _ (mkRuleObject [] 7 (mkReport [] [27] false true))
           _ []);
    [vm_compute; reflexivity | discriminate | reflexivity | reflexivity
    | left; reflexivity].
Defined.

Lemma visitCallExpression_keeps_rule_object sc fuel ro callee args st' :
  visitCallExpression sc fuel (Some ro) callee args = Some st' ->
  exists r, st' = Some (mkRuleObject (meta ro) (context ro) r).
Proof.
  intros Hv. simpl in Hv.
  destruct (is_context_report sc callee (context ro) && Nat.eqb (length args) 1);
    [|injection Hv as <-; exists (report_of ro); destruct ro; reflexivity].
  destruct args as [|a [|a' args]];
    [injection Hv as <-; eexists; reflexivity| |
     destruct a; injection Hv as <-; eexists; reflexivity].
  destruct a; try (injection Hv as <-; eexists; reflexivity).
  destruct (iterateProperties sc fuel properties); [|discriminate].
  injection Hv as <-. eexists; reflexivity.
Qed.

Lemma run_keeps_rule_object fuel evs ro st' :
  run fuel evs (Some ro) = Some st' ->
  exists r, st' = Some (mkRuleObject (meta ro) (context ro) r).
Proof.
  revert ro. induction evs as [|ev evs IH]; intros ro Hr; cbn [run] in Hr.
  - injection Hr as <-. exists (report_of ro). destruct ro; reflexivity.
  - destruct ev as [ps | sc callee args].
    + exact (IH ro Hr).
    + destruct (visitCallExpression sc fuel (Some ro) callee args) as [st1|] eqn:Hv;
        [|discriminate].
      destruct (visitCallExpression_keeps_rule_object _ _ _ _ _ _ Hv) as [r1 ->].
      destruct (IH _ Hr) as [r2 ->]. exists r2. reflexivity.
Qed.

(** C8: a visited object expression never changes an existing rule object;
    and at the end of a traversal the state is the rule object created from
    the first object expression of the [{meta, create}] shape ([meta] an
    object expression, [create] a [FunctionExpression] or
    [ArrowFunctionExpression] whose first parameter is an identifier), with
    its meta and context unchanged, or no rule object when none matches.
    [lint] hands this single state to [Program:exit] once. *)
Theorem single_rule_object_per_file :
  (forall ro ps, visitObjectExpression (Some ro) ps = Some ro)
  /\ (forall fuel evs st', run fuel evs None = Some st' ->
       match first_rule_object evs with
       | None => st' = None
       | Some (mps, cid) => exists r, st' = Some (mkRuleObject mps cid r)
       end).
Proof.
  split; [reflexivity|].
  intros fuel evs. induction evs as [|ev evs IH]; intros st' Hr; simpl in Hr |- *.
  - injection Hr as <-. reflexivity.
  - destruct ev as [ps | sc callee args].
    + unfold visitObjectExpression in Hr.
      destruct (match_rule_object ps) as [[mps cid]|].
      * exact (run_keeps_rule_object _ _ (mkRuleObject mps cid empty_report) _ Hr).
      * exact (IH _ Hr).
    + exact (IH _ Hr).
Qed.

Lemma single_rule_object_per_file_witness :
  match first_rule_object (rule_file (file_scope 7 []) [fixable_code] node_messageId) with
  | None => Some (Some (mkRuleObject [fixable_code] 7 (mkReport [] [] false true))) = None
  | Some (mps, cid) =>
      exists r, Some (mkRuleObject [fixable_code] 7 (mkReport [] [] false true))
                = Some (mkRuleObject mps cid r)
  end.
Proof.
  refine (proj2 single_rule_object_per_file 10
            (rule_file (file_scope 7 []) [fixable_code] node_messageId)
            (Some (mkRuleObject [fixable_code] 7 (mkReport [] [] false true))) _).
  vm_compute. reflexivity.
Defined.

Lemma found_stays_false fuel evs st ro :
  run fuel evs st = Some (Some ro) ->
  (forall sc callee args, In (EvCallExpression sc callee args) evs ->
     is_context_report sc callee (context ro) = true -> length args <> 1) ->
  (forall r0, st = Some r0 -> found (report_of r0) = false) ->
  found (report_of ro) = false.
Proof.
  revert st. induction evs as [|ev evs IH]; intros st Hr Hcalls Hst.
  - simpl in Hr. injection Hr as ->. apply Hst. reflexivity.
  - assert (Hrest : forall sc callee args, In (EvCallExpression sc callee args) evs ->
              is_context_report sc callee (context ro) = true -> length args <> 1)
      by (intros sc callee args Hin; apply Hcalls; right; exact Hin).
    pose proof Hr as Hr0. simpl in Hr.
    destruct ev as [ps | sc callee args].
    + apply (IH _ Hr Hrest).
      intros r0 Hr1. destruct st as [r1|]; simpl in Hr1.
      * apply Hst. exact Hr1.
      * destruct (match_rule_object ps) as [[mps cid]|]; [|discriminate].
        injection Hr1 as <-. reflexivity.
    + destruct st as [r1|].
      * destruct (run_keeps_rule_object _ _ _ _ Hr0) as [r Hro].
        injection Hro as Hro.
        assert (Hc1 : is_context_report sc callee (context r1)
                      && Nat.eqb (length args) 1 = false).
        { destruct (is_context_report sc callee (context r1)) eqn:Hc; [|reflexivity].
          simpl. apply Nat.eqb_neq. apply (Hcalls sc callee args (or_introl eq_refl)).
          rewrite Hro. exact Hc. }
        simpl in Hr. rewrite Hc1 in Hr.
        exact (IH _ Hr Hrest Hst).
      * apply (IH _ Hr Hrest). intros r0 Hr1; discriminate.
Qed.

(** C10: a call [x.report(...)] whose argument count is not one leaves
    the state unchanged (neither [found] nor [hasUnknown] set, no fix or
    suggest node); so a file whose report calls on the context parameter
    all have zero or several arguments gets no diagnostic. *)
Theorem report_call_needs_one_argument :
  (forall sc fuel st callee args,
     length args <> 1 -> visitCallExpression sc fuel st callee args = Some st)
  /\ (forall fuel evs ro sc_exit,
       run fuel evs None = Some (Some ro) ->
       (forall sc callee args, In (EvCallExpression sc callee args) evs ->
          is_context_report sc callee (context ro) = true -> length args <> 1) ->
       lint fuel evs sc_exit = Some []).
Proof.
  split.
  - intros sc fuel st callee args Hlen. destruct st as [ro|]; [|reflexivity].
    simpl. apply Nat.eqb_neq in Hlen. rewrite Hlen, andb_false_r. reflexivity.
  - intros fuel evs ro sc_exit Hr Hcalls. unfold lint. rewrite Hr. simpl.
    rewrite (found_stays_false _ _ _ _ Hr Hcalls); [reflexivity|].
    intros r0 H; discriminate.
Qed.

Lemma report_call_needs_one_argument_witness :
  visitCallExpression (file_scope 7 []) 10 (Some (mkRuleObject [fixable_code] 7 empty_report))
    context_report [Identifier 60 "node"; Literal 61 (LString "message")]
    = Some (Some (mkRuleObject [fixable_code] 7 empty_report))
  /\ lint 10 (rule_file_two_args [fixable_code]) (file_scope 7 []) = Some [].
Proof.
  split.
  - apply (proj1 report_call_needs_one_argument). discriminate.
  - apply (proj2 report_call_needs_one_argument 10 _
             (mkRuleObject [fixable_code] 7 empty_report)).
    + vm_compute. reflexivity.
    + intros sc callee args Hin _. simpl in Hin.
      destruct Hin as [H | [H | [H | []]]]; try discriminate.
      injection H as _ _ <-. discriminate.
Defined.

(** ** Cyclic [const] chains *)

Lemma cycle_flatten_none f :
  (forall n, flattenExpressions cycle_scope f (Identifier n "a") = None)
  /\ (forall n, flattenExpressions cycle_scope f (Identifier n "b") = None).
Proof.
  induction f as [|f [IHa IHb]]; split; intros n; try reflexivity;
    rewrite flatten_S; simpl; [apply IHb | apply IHa].
Qed.

Lemma cycle_walk_none f : iterateProperties cycle_scope f spread_a = None.
Proof.
  destruct f as [|f]; [reflexivity|].
  change (walk_properties (iterateProperties cycle_scope f)
            (flattenExpressions cycle_scope f) spread_a = None).
  simpl. rewrite (proj1 (cycle_flatten_none f) 92). reflexivity.
Qed.

(** C4, counterexample: [const a = b; const b = a;] parses, and both
    bindings are single [const] declarators with an initializer, so the
    flattener follows [a -> b -> a -> ...] for ever: [a] yields no finite
    list at any depth, the walk of [meta: { ...a }] never ends, and neither
    does the check of a rule whose meta is [{ ...a }] (the [context.report]
    call has been [found], so [Program:exit] walks the meta). *)
Lemma cyclic_const_chain_diverges :
  ~ (exists l, yields cycle_scope (Identifier 92 "a") l)
  /\ ~ (exists l, walks cycle_scope spread_a l)
  /\ (forall fuel, lint fuel (rule_file cycle_scope spread_a node_messageId) cycle_scope = None).
Proof.
  split; [|split].
  - intros [l [f Hf]]. rewrite (proj1 (cycle_flatten_none f) 92) in Hf. discriminate.
  - intros [l [f Hf]]. rewrite cycle_walk_none in Hf. discriminate.
  - intros [|f]; [reflexivity|].
    assert (Hrun : run (S f) (rule_file cycle_scope spread_a node_messageId) None
                   = Some (Some (mkRuleObject spread_a 7
                                   (mkReport [] [] false true)))) by reflexivity.
    unfold lint. rewrite Hrun. cbn [programExit report_of found negb meta].
    rewrite cycle_walk_none. reflexivity.
Qed.

(** C4: the flattener and the walker terminate, on every expression and
    every property list, as soon as the [const] chains of the scope are
    acyclic, i.e. some rank on names decreases from each resolved name to
    every name its initializer may look up. *)
Theorem generators_terminate_when_acyclic sc rank :
  const_chains_ranked sc rank ->
  (forall e, exists l, yields sc e l) /\ (forall ps, exists l, walks sc ps l).
Proof.
  intros Hr. split.
  - intros e.
    apply (flatten_terminates sc rank Hr
             (S (fold_right (fun x m => max (rank x) m) 0 (heads e)))).
    intros y Hy. apply rank_bound. exact Hy.
  - intros ps.
    apply (walks_terminate sc rank Hr
             (S (fold_right (fun x m => max (rank x) m) 0 (deps_elems ps)))).
    intros y Hy. apply rank_bound. exact Hy.
Qed.

Lemma generators_terminate_when_acyclic_witness :
  let sc := file_scope 7 [("ruleMeta", ruleMeta_cond)] in
  let rank := fun x => if String.eqb x "ruleMeta" then 1 else 0 in
  const_chains_ranked sc rank
  /\ (forall e, exists l, yields sc e l) /\ (forall ps, exists l, walks sc ps l).
Proof.
  intros sc rank.
  assert (Hr : const_chains_ranked sc rank).
  { intros x init H y Hy. unfold sc, resolve_const, file_scope in H.
    destruct (String.eqb x "context"); [discriminate|].
    cbn [find fst] in H. destruct (String.eqb "ruleMeta" x) eqn:E; [|discriminate].
    apply String.eqb_eq in E. subst x. injection H as <-.
    simpl in Hy. destruct Hy as [<- | []]; vm_compute; lia. }
  split; [exact Hr | apply (generators_terminate_when_acyclic sc rank Hr)].
Defined.

(** ** A meta that is a single spread *)

Lemma flatten_nonempty sc f e es : flattenExpressions sc f e = Some es -> es <> [].
Proof.
  revert e es. induction f as [|f IH]; intros e es H; [discriminate|].
  rewrite flatten_S in H.
  destruct e as [n name | n v | n t c a | n ps' | n ps' | n ps' | n ob q | n c' args | n];
    try (injection H as <-; discriminate).
  - destruct (resolve_const sc name); [exact (IH _ _ H)|].
    injection H as <-. discriminate.
  - destruct (flattenExpressions sc f c) as [l1|] eqn:E1; [|discriminate].
    destruct (flattenExpressions sc f a) as [l2|]; [|discriminate].
    injection H as <-. intros Hn. apply (IH _ _ E1).
    destruct l1; [reflexivity | discriminate].
Qed.

Lemma objects_of_none es : (forall e, In e es -> is_object e = false) -> objects_of es = [].
Proof.
  induction es as [|e es IH]; intros H; [reflexivity|].
  destruct e; simpl; try (apply IH; intros e' He'; apply H; right; exact He').
  discriminate (H _ (or_introl eq_refl)).
Qed.

Lemma existsb_not_object es :
  es <> [] -> (forall e, In e es -> is_object e = false) ->
  existsb (fun e => negb (is_object e)) es = true.
Proof.
  destruct es as [|e es]; intros Hn H; [contradiction Hn; reflexivity|].
  simpl. rewrite (H e (or_introl eq_refl)). reflexivity.
Qed.

(** C5, counterexample: the spread of a resolvable binding is no
    suppression. With [const ruleMeta = {};] and [meta: { ...ruleMeta }], a
    report site passing [fix] gets [shouldBeFixable]; with
    [const ruleMeta = cond ? { fixable: 'code' } : other;] and a report site
    without [fix], the [fixable] of the object branch gets
    [shouldNotBeFixable]. *)
Lemma spread_of_resolved_meta_reports :
  lint 10 (rule_file (file_scope 7 [("ruleMeta", ObjectExpression 82 [])])
             spread_ruleMeta (node_messageId ++ [fix_prop]))
    (file_scope 7 [("ruleMeta", ObjectExpression 82 [])])
    = Some [mkDiag 27 shouldBeFixable]
  /\ lint 10 (rule_file (file_scope 7 [("ruleMeta",
                 ConditionalExpression 83 (Identifier 84 "cond")
                   (ObjectExpression 85 [fixable_code]) (Identifier 86 "other"))])
                spread_ruleMeta node_messageId)
       (file_scope 7 [("ruleMeta",
           ConditionalExpression 83 (Identifier 84 "cond")
             (ObjectExpression 85 [fixable_code]) (Identifier 86 "other"))])
     = Some [mkDiag 40 shouldNotBeFixable].
Proof. split; vm_compute; reflexivity. Qed.

(** C5: when the meta is a single spread [{ ...x }] whose flattening has
    no object-expression shape (nothing it resolves to is an object
    literal), [Program:exit] reports nothing, whatever the report sites
    collected. *)
Theorem spread_meta_unresolved_no_diagnostic sc fuel ro n arg es :
  meta ro = [SpreadElement n arg] ->
  flattenExpressions sc fuel arg = Some es ->
  (forall e, In e es -> is_object e = false) ->
  programExit sc (S fuel) (Some ro) = Some [].
Proof.
  intros Hm Hf Hno. unfold programExit.
  destruct (negb (found (report_of ro))); [reflexivity|].
  assert (Hi : iterateProperties sc (S fuel) (meta ro) = Some [SpreadElement n arg]).
  { rewrite Hm.
    change (walk_properties (iterateProperties sc fuel) (flattenExpressions sc fuel)
              [SpreadElement n arg] = Some [SpreadElement n arg]).
    simpl. rewrite Hf.
    rewrite (walk_flattened_complete _ es []);
      [| rewrite (objects_of_none _ Hno); constructor].
    rewrite (existsb_not_object _ (flatten_nonempty _ _ _ _ Hf) Hno). reflexivity. }
  rewrite Hi. simpl.
  unfold fix_check, suggest_check.
  destruct (fixNodes (report_of ro)), (suggestNodes (report_of ro)),
    (hasUnknown (report_of ro)); reflexivity.
Qed.

Lemma spread_meta_unresolved_no_diagnostic_witness :
  meta (mkRuleObject spread_ruleMeta 7 (mkReport [30] [27] false true)) = spread_ruleMeta
  /\ flattenExpressions (file_scope 7 []) 5 (Identifier 81 "ruleMeta")
       = Some [Identifier 81 "ruleMeta"]
  /\ programExit (file_scope 7 []) 6
       (Some (mkRuleObject spread_ruleMeta 7 (mkReport [30] [27] false true))) = Some [].
Proof.
  split; [reflexivity|]. split; [reflexivity|].
  apply (spread_meta_unresolved_no_diagnostic (file_scope 7 []) 5
           (mkRuleObject spread_ruleMeta 7 (mkReport [30] [27] false true))
           80 (Identifier 81 "ruleMeta") [Identifier 81 "ruleMeta"]).
  - reflexivity.
  - reflexivity.
  - intros e [<- | []]. reflexivity.
Defined.

End ValidRuleMetaFacts.

(** * Properties of no-restricted-imports *)

Module NoRestrictedImportsFacts.
Import NoRestrictedImports.

(** C9: an import or export declaration whose [source] is not a string
    literal (another expression, or no source at all) is skipped by
    [verify]: neither the path check nor the pattern check reports
    anything for it. *)
Theorem non_string_source_skipped (restrictedPaths : list ParsedPathOption)
  (restrictedPatternGroups : list ParsedPatternGroup) (d : declaration) :
  isStringLiteral (decl_source d) = false ->
  visit restrictedPaths restrictedPatternGroups d = [].
Proof.
  intros H.
  assert (Hv : string_value (decl_source d) = None).
  { destruct (decl_source d) as [[[s| |]|]|]; simpl in H |- *; congruence. }
  destruct d as [nid source k sps | nid source k sps | nid source k star];
    simpl in Hv |- *; unfold verify; rewrite Hv; reflexivity.
Qed.

Lemma non_string_source_skipped_witness :
  visit [mkPath "foo" OAll None None] [mkGroup (fun _ => true) OAll None]
    (ExportNamedDeclaration 1 None KValue [("a", mkLoc 1 9)]) = []
  /\ visit [mkPath "foo" OAll None None] [mkGroup (fun _ => true) OAll None]
       (ImportDeclaration 2 (Some SourceOther) KValue []) = [].
Proof.
  split; apply non_string_source_skipped; reflexivity.
Defined.

End NoRestrictedImportsFacts.

(** * Further properties of valid-rule-meta *)

Module ValidRuleMetaMore.
Import ValidRuleMeta ValidRuleMetaFacts.

Lemma collect_descriptor_spec (props : list elem) (r : report) :
  collect_descriptor props r
  = mkReport (suggestNodes r ++ keys_named "suggest" props)
      (fixNodes r ++ keys_named "fix" props)
      (hasUnknown r || has_non_property props) (found r).
Proof.
  revert r. induction props as [|p props IH]; intros [sn fn hu fd].
  - simpl. rewrite !app_nil_r, orb_false_r. reflexivity.
  - destruct p as [nid key [name|] v | nid key pn | nid arg]; cbn [collect_descriptor].
    + destruct (String.eqb_spec name "suggest") as [->|Hs].
      * rewrite IH. simpl. rewrite <- app_assoc. reflexivity.
      * destruct (String.eqb_spec name "fix") as [->|Hf].
        -- rewrite IH. simpl. rewrite <- app_assoc. reflexivity.
        -- rewrite IH. unfold keys_named. simpl.
           apply String.eqb_neq in Hs, Hf. rewrite Hs, Hf. reflexivity.
    + rewrite IH. reflexivity.
    + rewrite IH. simpl. rewrite orb_true_r. reflexivity.
    + rewrite IH. simpl. rewrite orb_true_r. reflexivity.
Qed.

(** A matched [context.report({...})] call: the [suggest] and [fix] keys
    of the walked descriptor are appended, in order, [found] is set, and
    [hasUnknown] is set when the walk kept a method or an unresolved spread. *)
Theorem report_call_collects_keys sc fuel ro callee n ps props :
  is_context_report sc callee (context ro) = true ->
  iterateProperties sc fuel ps = Some props ->
  visitCallExpression sc fuel (Some ro) callee [ObjectExpression n ps]
  = Some (Some (mkRuleObject (meta ro) (context ro)
       (mkReport (suggestNodes (report_of ro) ++ keys_named "suggest" props)
          (fixNodes (report_of ro) ++ keys_named "fix" props)
          (hasUnknown (report_of ro) || has_non_property props) true))).
Proof.
  intros Hc Hi. simpl. rewrite Hc, Hi. simpl.
  rewrite collect_descriptor_spec. reflexivity.
Qed.

Lemma report_call_collects_keys_witness :
  is_context_report (file_scope 7 []) context_report 7 = true
  /\ iterateProperties (file_scope 7 []) 3 (node_messageId ++ [fix_prop; suggest_prop])
     = Some (node_messageId ++ [fix_prop; suggest_prop])
  /\ visitCallExpression (file_scope 7 []) 3 (Some (mkRuleObject [] 7 empty_report))
       context_report [ObjectExpression 11 (node_messageId ++ [fix_prop; suggest_prop])]
     = Some (Some (mkRuleObject [] 7
         (mkReport ([] ++ keys_named "suggest" (node_messageId ++ [fix_prop; suggest_prop]))
            ([] ++ keys_named "fix" (node_messageId ++ [fix_prop; suggest_prop]))
            (false || has_non_property (node_messageId ++ [fix_prop; suggest_prop])) true))).
Proof.
  split; [reflexivity|]. split; [reflexivity|].
  exact (report_call_collects_keys (file_scope 7 []) 3 (mkRuleObject [] 7 empty_report)
           context_report 11 (node_messageId ++ [fix_prop; suggest_prop])
           (node_messageId ++ [fix_prop; suggest_prop]) eq_refl eq_refl).
Defined.

Lemma report_le_refl r : report_le r r.
Proof.
  repeat split; auto; exists []; rewrite app_nil_r; reflexivity.
Qed.

Lemma report_le_trans r1 r2 r3 : report_le r1 r2 -> report_le r2 r3 -> report_le r1 r3.
Proof.
  intros [[s1 Hs1] [[f1 Hf1] [Hu1 Hd1]]] [[s2 Hs2] [[f2 Hf2] [Hu2 Hd2]]].
  repeat split; auto.
  - exists (s1 ++ s2). rewrite Hs2, Hs1, app_assoc. reflexivity.
  - exists (f1 ++ f2). rewrite Hf2, Hf1, app_assoc. reflexivity.
Qed.

Lemma report_le_unknown r : report_le r (set_hasUnknown true (set_found r)).
Proof.
  repeat split; try (exists []; rewrite app_nil_r; reflexivity); reflexivity.
Qed.

Lemma visitCallExpression_grows sc fuel ro callee args st' :
  visitCallExpression sc fuel (Some ro) callee args = Some st' ->
  exists ro', st' = Some ro' /\ meta ro' = meta ro /\ context ro' = context ro
              /\ report_le (report_of ro) (report_of ro').
Proof.
  intros Hv. simpl in Hv.
  destruct (is_context_report sc callee (context ro) && Nat.eqb (length args) 1);
    [|injection Hv as <-; exists ro; repeat split; auto; apply report_le_refl].
  destruct args as [|a [|a' args]];
    [injection Hv as <- | destruct a | destruct a; injection Hv as <-];
    try (injection Hv as <-);
    try (eexists; split; [reflexivity|]; split; [reflexivity|]; split; [reflexivity|];
         apply report_le_unknown).
  destruct (iterateProperties sc fuel properties) as [props|]; [|discriminate].
  injection Hv as <-. eexists; split; [reflexivity|]. split; [reflexivity|].
  split; [reflexivity|]. simpl. rewrite collect_descriptor_spec. simpl.
  repeat split.
  - exists (keys_named "suggest" props). reflexivity.
  - exists (keys_named "fix" props). reflexivity.
  - intros H. rewrite H. reflexivity.
Qed.

(** Once the rule object exists, the traversal never replaces its meta or
    context, never removes a collected [fix] or [suggest] key (keys are only
    appended), and never resets [found] or [hasUnknown]. *)
Theorem run_report_grows fuel evs ro st' :
  run fuel evs (Some ro) = Some st' ->
  exists ro', st' = Some ro' /\ meta ro' = meta ro /\ context ro' = context ro
              /\ report_le (report_of ro) (report_of ro').
Proof.
  revert ro. induction evs as [|ev evs IH]; intros ro Hr; cbn [run] in Hr.
  - injection Hr as <-. exists ro. repeat split; auto; apply report_le_refl.
  - destruct ev as [ps | sc callee args].
    + exact (IH ro Hr).
    + destruct (visitCallExpression sc fuel (Some ro) callee args) as [st1|] eqn:Hv;
        [|discriminate].
      destruct (visitCallExpression_grows _ _ _ _ _ _ Hv) as [ro1 [-> [Hm1 [Hc1 Hl1]]]].
      destruct (IH _ Hr) as [ro2 [-> [Hm2 [Hc2 Hl2]]]].
      exists ro2. split; [reflexivity|]. split; [congruence|]. split; [congruence|].
      exact (report_le_trans _ _ _ Hl1 Hl2).
Qed.

Lemma run_report_grows_witness :
  run 10 [EvCallExpression (file_scope 7 []) context_report
            [ObjectExpression 11 (node_messageId ++ [fix_prop])];
          EvCallExpression (file_scope 7 []) context_report [Identifier 12 "descriptor"]]
    (Some (mkRuleObject [fixable_code] 7 empty_report))
  = Some (Some (mkRuleObject [fixable_code] 7 (mkReport [] [27] true true)))
  /\ exists ro', Some (mkRuleObject [fixable_code] 7 (mkReport [] [27] true true)) = Some ro'
       /\ meta ro' = [fixable_code] /\ context ro' = 7 /\ report_le empty_report (report_of ro').
Proof.
  split; [vm_compute; reflexivity|].
  exact (run_report_grows 10 _ (mkRuleObject [fixable_code] 7 empty_report) _
           (eq_refl : run 10 [EvCallExpression (file_scope 7 []) context_report
                                [ObjectExpression 11 (node_messageId ++ [fix_prop])];
                              EvCallExpression (file_scope 7 []) context_report
                                [Identifier 12 "descriptor"]]
                        (Some (mkRuleObject [fixable_code] 7 empty_report))
                      = Some (Some (mkRuleObject [fixable_code] 7
                                      (mkReport [] [27] true true))))).
Defined.

Lemma with_message_app m a b : with_message m (a ++ b) = with_message m a ++ with_message m b.
Proof. unfold with_message. apply filter_app. Qed.

Lemma with_message_reports m' l m :
  with_message m' (reports l m) = if messageId_eqb m m' then reports l m else [].
Proof. unfold with_message. apply (filter_reports (fun x => messageId_eqb x m')). Qed.

Lemma fix_check_no_suggest_messages (r : report) fp hs :
  with_message shouldBeSuggestable (fix_check r fp hs) = []
  /\ with_message shouldNotBeSuggestable (fix_check r fp hs) = [].
Proof.
  unfold fix_check.
  split; split_matches; rewrite ?with_message_reports; reflexivity.
Qed.

Lemma positive_app a b : positive_diags (a ++ b) = positive_diags a ++ positive_diags b.
Proof. unfold positive_diags. apply filter_app. Qed.

Lemma negative_app a b : negative_diags (a ++ b) = negative_diags a ++ negative_diags b.
Proof. unfold negative_diags. apply filter_app. Qed.

Lemma positive_reports l m : positive_diags (reports l m) = if is_positive m then reports l m else [].
Proof. unfold positive_diags. apply (filter_reports is_positive). Qed.

Lemma negative_reports l m :
  negative_diags (reports l m) = if negb (is_positive m) then reports l m else [].
Proof. unfold negative_diags. apply (filter_reports (fun x => negb (is_positive x))). Qed.

(** [Program:exit] never reports both [shouldBeFixable] and
    [shouldNotBeFixable], nor both [shouldBeSuggestable] and
    [shouldNotBeSuggestable], and reports each of the two negative messages
    at most once. *)
Theorem programExit_messages_exclusive sc fuel st ds :
  programExit sc fuel st = Some ds ->
  (with_message shouldBeFixable ds = [] \/ with_message shouldNotBeFixable ds = [])
  /\ (with_message shouldBeSuggestable ds = [] \/ with_message shouldNotBeSuggestable ds = [])
  /\ length (with_message shouldNotBeFixable ds) <= 1
  /\ length (with_message shouldNotBeSuggestable ds) <= 1.
Proof.
  unfold programExit. intros H.
  destruct st as [ro|]; [|injection H as <-; simpl; auto].
  destruct (negb (found (report_of ro))); [injection H as <-; simpl; auto|].
  destruct (iterateProperties sc fuel (meta ro)) as [props|]; [|discriminate].
  destruct (scan_meta props None None false) as [[fp hp] hs].
  injection H as <-.
  rewrite !with_message_app.
  destruct (suggest_check_no_fix_messages (report_of ro) hp hs) as [-> ->].
  destruct (fix_check_no_suggest_messages (report_of ro) fp hs) as [-> ->].
  rewrite !app_nil_r. simpl.
  unfold fix_check, suggest_check.
  repeat split; split_matches; rewrite ?with_message_reports; simpl;
    auto; lia.
Qed.

Lemma programExit_messages_exclusive_witness :
  programExit (file_scope 7 []) 5
    (Some (mkRuleObject [fixable_code; hasSuggestions_true] 7 (mkReport [] [] false true)))
  = Some [mkDiag 40 shouldNotBeFixable; mkDiag 43 shouldNotBeSuggestable]
  /\ (with_message shouldBeFixable [mkDiag 40 shouldNotBeFixable; mkDiag 43 shouldNotBeSuggestable] = []
      \/ with_message shouldNotBeFixable
           [mkDiag 40 shouldNotBeFixable; mkDiag 43 shouldNotBeSuggestable] = [])
  /\ (with_message shouldBeSuggestable
        [mkDiag 40 shouldNotBeFixable; mkDiag 43 shouldNotBeSuggestable] = []
      \/ with_message shouldNotBeSuggestable
           [mkDiag 40 shouldNotBeFixable; mkDiag 43 shouldNotBeSuggestable] = [])
  /\ length (with_message shouldNotBeFixable
               [mkDiag 40 shouldNotBeFixable; mkDiag 43 shouldNotBeSuggestable]) <= 1
  /\ length (with_message shouldNotBeSuggestable
               [mkDiag 40 shouldNotBeFixable; mkDiag 43 shouldNotBeSuggestable]) <= 1.
Proof.
  split; [vm_compute; reflexivity|].
  apply (programExit_messages_exclusive (file_scope 7 []) 5
           (Some (mkRuleObject [fixable_code; hasSuggestions_true] 7
                    (mkReport [] [] false true)))).
  vm_compute. reflexivity.
Defined.

(** A spread kept by the meta walk (one the flattener could not resolve to
    object literals) silences the positive messages only: the diagnostics are
    exactly the [shouldNotBeFixable] and [shouldNotBeSuggestable] ones the
    same meta without the spread would get. *)
Theorem spread_silences_only_positive sc fuel ro props :
  found (report_of ro) = true ->
  iterateProperties sc fuel (meta ro) = Some props ->
  hasSpread_of props = true ->
  exists ds, programExit sc fuel (Some ro) = Some ds
    /\ positive_diags ds = []
    /\ ds = negative_diags (fix_check (report_of ro) (fixableProp_of props) false
                            ++ suggest_check (report_of ro) (hasSuggestionsProp_of props) false).
Proof.
  intros Hf Hi Hs. rewrite (programExit_found _ _ _ _ Hf Hi), Hs.
  eexists. split; [reflexivity|].
  rewrite positive_app, negative_app.
  unfold fix_check, suggest_check.
  split; split_matches; rewrite ?positive_reports, ?negative_reports; reflexivity.
Qed.

Lemma spread_silences_only_positive_witness :
  let sc := file_scope 7 [] in
  let ro := mkRuleObject (spread_ruleMeta ++ [fixable_code]) 7 (mkReport [30] [] false true) in
  found (report_of ro) = true
  /\ iterateProperties sc 5 (meta ro) = Some (spread_ruleMeta ++ [fixable_code])
  /\ hasSpread_of (spread_ruleMeta ++ [fixable_code]) = true
  /\ programExit sc 5 (Some ro) = Some [mkDiag 40 shouldNotBeFixable]
  /\ exists ds, programExit sc 5 (Some ro) = Some ds
    /\ positive_diags ds = []
    /\ ds = negative_diags (fix_check (report_of ro)
                              (fixableProp_of (spread_ruleMeta ++ [fixable_code])) false
                            ++ suggest_check (report_of ro)
                                 (hasSuggestionsProp_of (spread_ruleMeta ++ [fixable_code]))
                                 false).
Proof.
  intros sc ro.
  split; [reflexivity|]. split; [vm_compute; reflexivity|].
  split; [reflexivity|]. split; [vm_compute; reflexivity|].
  apply spread_silences_only_positive; [reflexivity | vm_compute; reflexivity | reflexivity].
Defined.

Lemma scan_meta_fold props f h b :
  scan_meta props f h b
  = (fold_left (fun acc p => match p with
                             | Property pid _ (Some n) v =>
                                 if String.eqb n "fixable" then Some (pid, v) else acc
                             | _ => acc
                             end) props f,
     fold_left (fun acc p => match p with
                             | Property pid _ (Some n) v =>
                                 if String.eqb n "hasSuggestions" then Some (pid, v) else acc
                             | _ => acc
                             end) props h,
     b || existsb is_spread props).
Proof.
  revert f h b. induction props as [|p props IH]; intros f h b.
  - simpl. rewrite orb_false_r. reflexivity.
  - destruct p as [pid key [name|] v | nid key pn | nid arg]; cbn [scan_meta fold_left].
    + destruct (String.eqb_spec name "fixable") as [->|Hf].
      * rewrite IH. reflexivity.
      * destruct (String.eqb_spec name "hasSuggestions") as [->|Hh].
        -- rewrite IH. reflexivity.
        -- rewrite IH. reflexivity.
    + rewrite IH. reflexivity.
    + rewrite IH. reflexivity.
    + rewrite IH. simpl. rewrite orb_true_r. reflexivity.
Qed.

(** The loop of [Program:exit] over the walked meta keeps the last
    [fixable] and the last [hasSuggestions] property, and sets [hasSpread]
    when any spread element remains. *)
Theorem meta_scan_last_wins props :
  fixableProp_of props = last_named "fixable" props
  /\ hasSuggestionsProp_of props = last_named "hasSuggestions" props
  /\ hasSpread_of props = existsb is_spread props.
Proof.
  unfold fixableProp_of, hasSuggestionsProp_of, hasSpread_of, last_named.
  rewrite scan_meta_fold. split; [reflexivity|]. split; reflexivity.
Qed.

(** With at least one [fix] site, a [fixable] property whose value is
    anything but [null] or [undefined] (for instance [false], [0] or an
    arbitrary string) is accepted: no fix-related diagnostic. *)
Theorem fixable_value_accepted sc fuel ro props pid v :
  found (report_of ro) = true ->
  iterateProperties sc fuel (meta ro) = Some props ->
  fixNodes (report_of ro) <> [] ->
  fixableProp_of props = Some (pid, v) ->
  is_null_or_undefined v = false ->
  exists ds, programExit sc fuel (Some ro) = Some ds
    /\ with_message shouldBeFixable ds = [] /\ with_message shouldNotBeFixable ds = [].
Proof.
  intros Hf Hi Hn Hp Hv. rewrite (programExit_found _ _ _ _ Hf Hi), Hp.
  eexists. split; [reflexivity|].
  rewrite !with_message_app.
  destruct (suggest_check_no_fix_messages (report_of ro)
              (hasSuggestionsProp_of props) (hasSpread_of props)) as [-> ->].
  unfold fix_check. destruct (fixNodes (report_of ro)); [contradiction Hn; reflexivity|].
  rewrite Hv. destruct (hasSpread_of props); split; reflexivity.
Qed.

Lemma fixable_value_accepted_witness :
  let meta_props := [Property 46 47 (Some "fixable") (Literal 48 (LBool false))] in
  let ro := mkRuleObject meta_props 7 (mkReport [] [27] false true) in
  found (report_of ro) = true
  /\ iterateProperties (file_scope 7 []) 5 (meta ro) = Some meta_props
  /\ fixNodes (report_of ro) <> []
  /\ fixableProp_of meta_props = Some (46, Literal 48 (LBool false))
  /\ is_null_or_undefined (Literal 48 (LBool false)) = false
  /\ exists ds, programExit (file_scope 7 []) 5 (Some ro) = Some ds
    /\ with_message shouldBeFixable ds = [] /\ with_message shouldNotBeFixable ds = [].
Proof.
  intros meta_props ro.
  split; [reflexivity|]. split; [vm_compute; reflexivity|].
  split; [discriminate|]. split; [reflexivity|]. split; [reflexivity|].
  apply (fixable_value_accepted (file_scope 7 []) 5 ro meta_props 46 (Literal 48 (LBool false)));
    [reflexivity | vm_compute; reflexivity | discriminate | reflexivity | reflexivity].
Defined.

(** A [hasSuggestions] property whose value is not a literal (a variable,
    a call, ...) is never checked: no suggestion-related diagnostic, with
    or without [suggest] sites. *)
Theorem hasSuggestions_non_literal_unchecked sc fuel ro props pid v :
  found (report_of ro) = true ->
  iterateProperties sc fuel (meta ro) = Some props ->
  hasSuggestionsProp_of props = Some (pid, v) ->
  (forall n l, v <> Literal n l) ->
  exists ds, programExit sc fuel (Some ro) = Some ds
    /\ with_message shouldBeSuggestable ds = [] /\ with_message shouldNotBeSuggestable ds = [].
Proof.
  intros Hf Hi Hp Hv. rewrite (programExit_found _ _ _ _ Hf Hi), Hp.
  eexists. split; [reflexivity|].
  rewrite !with_message_app.
  destruct (fix_check_no_suggest_messages (report_of ro)
              (fixableProp_of props) (hasSpread_of props)) as [-> ->].
  unfold suggest_check.
  destruct v; try (exfalso; eapply Hv; reflexivity);
    split_matches; split; reflexivity.
Qed.

Lemma hasSuggestions_non_literal_unchecked_witness :
  let meta_props := [Property 46 47 (Some "hasSuggestions") (Identifier 48 "flag")] in
  let ro := mkRuleObject meta_props 7 (mkReport [30] [] false true) in
  found (report_of ro) = true
  /\ iterateProperties (file_scope 7 []) 5 (meta ro) = Some meta_props
  /\ hasSuggestionsProp_of meta_props = Some (46, Identifier 48 "flag")
  /\ exists ds, programExit (file_scope 7 []) 5 (Some ro) = Some ds
    /\ with_message shouldBeSuggestable ds = []
    /\ with_message shouldNotBeSuggestable ds = [].
Proof.
  intros meta_props ro.
  split; [reflexivity|]. split; [vm_compute; reflexivity|]. split; [reflexivity|].
  apply (hasSuggestions_non_literal_unchecked (file_scope 7 []) 5 ro meta_props 46
           (Identifier 48 "flag"));
    [reflexivity | vm_compute; reflexivity | reflexivity | intros n l; discriminate].
Defined.

End ValidRuleMetaMore.

(** * Further properties of no-restricted-imports *)

Module NoRestrictedImportsMore.
Import NoRestrictedImports.

(** ** [trim] *)

Definition head_ok (l : list Ascii.ascii) : Prop :=
  match l with [] => True | c :: _ => is_ws c = false end.

Lemma trim_start_head l : head_ok (trim_start l).
Proof.
  induction l as [|c l IH]; simpl; [exact I|].
  destruct (is_ws c) eqn:E; [exact IH | exact E].
Qed.

Lemma trim_start_ok l : head_ok l -> trim_start l = l.
Proof. destruct l as [|c l]; simpl; [reflexivity|]. intros H. rewrite H. reflexivity. Qed.

Lemma trim_start_split l : exists p, l = p ++ trim_start l.
Proof.
  induction l as [|c l [p Hp]]; [exists []; reflexivity|]. simpl.
  destruct (is_ws c); [exists (c :: p); simpl; congruence | exists []; reflexivity].
Qed.

Lemma trim_start_rev_ok a : head_ok a -> head_ok (rev (trim_start (rev a))).
Proof.
  intros Ha. destruct (trim_start_split (rev a)) as [p Hp].
  assert (E : a = rev (trim_start (rev a)) ++ rev p).
  { rewrite <- (rev_involutive a) at 1. rewrite Hp at 1. apply rev_app_distr. }
  destruct (rev (trim_start (rev a))) as [|c r]; simpl; [exact I|].
  rewrite E in Ha. exact Ha.
Qed.

Lemma trim_idem s : trim (trim s) = trim s.
Proof.
  unfold trim. rewrite list_ascii_of_string_of_list_ascii.
  rewrite (trim_start_ok (rev (trim_start (rev (trim_start (list_ascii_of_string s))))))
    by (apply trim_start_rev_ok, trim_start_head).
  rewrite rev_involutive, (trim_start_ok (trim_start (rev _))) by apply trim_start_head.
  reflexivity.
Qed.

(** [verify] trims the import source: a source string and its trimmed form
    get the same reports. *)
Theorem verify_trims_source paths groups node raw k gen :
  verify paths groups node (Some (SourceLiteral (LString raw))) k gen
  = verify paths groups node (Some (SourceLiteral (LString (trim raw)))) k gen.
Proof. unfold verify. simpl. rewrite trim_idem. reflexivity. Qed.

(** ** The [importNames] map *)

Lemma find_add_name m name l x :
  find (fun p => String.eqb (fst p) x) (add_name m name l)
  = if String.eqb name x
    then match find (fun p => String.eqb (fst p) x) m with
         | Some (n, ls) => Some (n, ls ++ [l])
         | None => Some (name, [l])
         end
    else find (fun p => String.eqb (fst p) x) m.
Proof.
  induction m as [|[n ls] rest IH]; simpl.
  - destruct (String.eqb name x); reflexivity.
  - destruct (String.eqb_spec n name) as [->|Hn]; simpl.
    + destruct (String.eqb name x); reflexivity.
    + rewrite IH. destruct (String.eqb_spec n x) as [<-|Hx].
      * destruct (String.eqb_spec name n) as [E|]; [congruence | reflexivity].
      * reflexivity.
Qed.

Lemma lookup_fold gen m x :
  lookup_name x (fold_left (fun m nl => add_name m (fst nl) (snd nl)) gen m)
  = match lookup_name x m, occurrences x gen with
    | None, [] => None
    | None, ls => Some ls
    | Some a, ls => Some (a ++ ls)
    end.
Proof.
  revert m. induction gen as [|[name l] gen IH]; intros m; simpl.
  - destruct (lookup_name x m); [rewrite app_nil_r|]; reflexivity.
  - rewrite IH. unfold lookup_name at 1. rewrite find_add_name.
    unfold occurrences. simpl.
    destruct (String.eqb_spec name x) as [->|Hx]; simpl.
    + unfold lookup_name. destruct (find _ m) as [[n ls]|]; simpl;
        [rewrite <- app_assoc|]; reflexivity.
    + reflexivity.
Qed.

Lemma add_name_keys m name l :
  map fst (add_name m name l)
  = if existsb (fun k => String.eqb k name) (map fst m) then map fst m
    else map fst m ++ [name].
Proof.
  induction m as [|[n ls] rest IH]; simpl; [reflexivity|].
  destruct (String.eqb_spec n name); simpl; [reflexivity|].
  rewrite IH. destruct (existsb _ _); reflexivity.
Qed.

Lemma add_name_nodup m name l : NoDup (map fst m) -> NoDup (map fst (add_name m name l)).
Proof.
  intros H. rewrite add_name_keys.
  destruct (existsb (fun k => String.eqb k name) (map fst m)) eqn:E; [exact H|].
  apply Permutation_NoDup with (name :: map fst m); [apply Permutation_cons_append|].
  constructor; [|exact H].
  intros Hin. rewrite <- Bool.not_true_iff_false in E. apply E.
  apply existsb_exists. exists name. split; [exact Hin | apply String.eqb_refl].
Qed.

(** The [importNames] map built by [verify] from the generated
    (name, location) pairs has each name once, and the entry of a name lists
    the locations of all its occurrences, in order; a name that does not
    occur has no entry. *)
Theorem group_names_spec gen :
  NoDup (map fst (group_names gen))
  /\ forall x, lookup_name x (group_names gen)
               = match occurrences x gen with [] => None | ls => Some ls end.
Proof.
  split.
  - unfold group_names.
    assert (H : forall m, NoDup (map fst m) ->
              NoDup (map fst (fold_left (fun m nl => add_name m (fst nl) (snd nl)) gen m))).
    { induction gen as [|nl gen IH]; intros m Hm; simpl; [exact Hm|].
      apply IH. apply add_name_nodup. exact Hm. }
    apply H. constructor.
  - intros x. unfold group_names. rewrite lookup_fold. reflexivity.
Qed.

(** ** Counting the reports *)












Lemma find_all_false {A : Type} (f : A -> bool) l :
  (forall x, In x l -> f x = false) -> find f l = None.
Proof.
  induction l as [|a l IH]; intros H; simpl; [reflexivity|].
  rewrite (H a (or_introl eq_refl)). apply IH. intros x Hx. apply H. right. exact Hx.
Qed.

(** A configuration whose paths and pattern groups are all restricted to
    [importKind: 'type'] never reports a value import or export. *)
Theorem type_only_options_skip_values paths groups node src gen :
  (forall rp, In rp paths -> path_importKind rp = OType) ->
  (forall g, In g groups -> group_importKind g = OType) ->
  verify paths groups node src KValue gen = [].
Proof.
  intros Hp Hg. unfold verify. destruct (string_value src) as [raw|]; [|reflexivity].
  rewrite find_all_false.
  2: { intros rp Hrp. rewrite (Hp rp Hrp), andb_false_r. reflexivity. }
  simpl. induction groups as [|g groups IH]; simpl; [reflexivity|].
  rewrite (Hg g (or_introl eq_refl)), andb_false_r. simpl.
  apply IH. intros g' Hg'. apply Hg. right. exact Hg'.
Qed.

Lemma type_only_options_skip_values_witness :
  (forall rp, In rp [mkPath "foo" OType None None] -> path_importKind rp = OType)
  /\ (forall g, In g [mkGroup (fun _ => true) OType None] -> group_importKind g = OType)
  /\ verify [mkPath "foo" OType None None] [mkGroup (fun _ => true) OType None] 1
       (Some (SourceLiteral (LString "foo"))) KValue [("a", mkLoc 1 9)] = []
  /\ length (verify [mkPath "foo" OType None None] [mkGroup (fun _ => true) OType None] 1
               (Some (SourceLiteral (LString "foo"))) KType [("a", mkLoc 1 9)]) = 2.
Proof.
  assert (Hp : forall rp, In rp [mkPath "foo" OType None None] -> path_importKind rp = OType)
    by (intros rp [<- | []]; reflexivity).
  assert (Hg : forall g, In g [mkGroup (fun _ => true) OType None] -> group_importKind g = OType)
    by (intros g [<- | []]; reflexivity).
  split; [exact Hp|]. split; [exact Hg|].
  split; [exact (type_only_options_skip_values _ _ 1 _ _ Hp Hg) | vm_compute; reflexivity].
Defined.

(** [export * from 'x'] of a source whose path entry restricts only some
    [importNames] is reported once, with the [everything] message at the
    [*] token, listing the restricted names: re-exporting everything
    re-exports the restricted ones. *)
Theorem export_all_reports_everything paths node raw k star rp names :
  find (fun rp => String.eqb (path_name rp) (trim raw)
                  && kind_matches (path_importKind rp) k) paths = Some rp ->
  path_importNames rp = Some names ->
  visit paths [] (ExportAllDeclaration node (Some (SourceLiteral (LString raw))) k star)
  = [mkDiagnostic node MEverything (truthy (path_customMessage rp)) (Some star) (trim raw)
       (Some (join "," names)) None (importKindPhrase (path_importKind rp))
       (path_customMessage rp)].
Proof.
  intros Hf Hn. simpl. unfold verify. cbn [string_value]. rewrite Hf, Hn. reflexivity.
Qed.

Lemma export_all_reports_everything_witness :
  let rp := mkPath "foo" OAll (Some ["a"; "b"]) (Some "use bar") in
  find (fun rp => String.eqb (path_name rp) (trim "foo")
                  && kind_matches (path_importKind rp) KValue) [rp] = Some rp
  /\ path_importNames rp = Some ["a"; "b"]
  /\ visit [rp] [] (ExportAllDeclaration 1 (Some (SourceLiteral (LString "foo"))) KValue
                      (mkLoc 1 7))
     = [mkDiagnostic 1 MEverything true (Some (mkLoc 1 7)) "foo" (Some "a,b") None
          "type-only import and import" (Some "use bar")].
Proof.
  intros rp. split; [vm_compute; reflexivity|]. split; [reflexivity|].
  exact (export_all_reports_everything [rp] 1 "foo" KValue (mkLoc 1 7) rp ["a"; "b"]
           (eq_refl : find (fun rp => String.eqb (path_name rp) (trim "foo")
                                      && kind_matches (path_importKind rp) KValue) [rp]
                      = Some rp) eq_refl).
Defined.

End NoRestrictedImportsMore.

(** * Properties of [parseOptions] *)

Module NoRestrictedImportsOptionsFacts.
Import NoRestrictedImports NoRestrictedImportsOptions.

Section Parse.
Variable ignore_add : list string -> string -> bool.

Lemma parse_strings_acc ss ps gs :
  fold_left (parse_option ignore_add) (map PathString ss) (ps, gs)
  = (ps ++ map (fun s => mkParsedPath (Some s) OAll None None) ss, gs).
Proof.
  revert ps. induction ss as [|s ss IH]; intros ps; simpl.
  - rewrite app_nil_r. reflexivity.
  - rewrite IH, <- app_assoc. reflexivity.
Qed.

(** The array form [['a', 'b', ...]] restricts each listed path, for
    every import kind, with no [importNames] and no custom message, and
    builds no pattern group. *)
Theorem string_options_parse ss :
  parseOptions ignore_add (map PathString ss)
  = (map (fun s => mkParsedPath (Some s) OAll None None) ss, []).
Proof. unfold parseOptions. rewrite parse_strings_acc. reflexivity. Qed.

(** [isCompositeOption] tests the keys [path] and [patterns], not
    [paths]: an option object with [paths] and no [patterns] is taken for a
    path option. Its [paths] are dropped; it becomes one restricted path
    whose [name] is [undefined], which no import source matches, although
    the rule still installs its visitors. With [patterns: []] added, the
    same [paths] are parsed. *)
Theorem paths_only_option_ignored ps :
  parseOptions ignore_add [PathObject None None None None (Some ps) None]
    = ([mkParsedPath None OAll None None], [])
  /\ has_visitors ignore_add [PathObject None None None None (Some ps) None] = true
  /\ (forall src k, path_matches (mkParsedPath None OAll None None) src k = false)
  /\ parseOptions ignore_add [PathObject None None None None (Some ps) (Some [])]
       = (map parsePathOption ps, []).
Proof.
  split; [reflexivity|]. split; [reflexivity|]. split; [reflexivity|].
  reflexivity.
Qed.

Lemma collect_patterns_acc pats sp gs :
  fold_left (fun acc p =>
    let '(stringPatterns, gs) := acc in
    match p with
    | PatternString s => (stringPatterns ++ [s], gs)
    | PatternObject group importKind message =>
        (stringPatterns,
         gs ++ [mkGroup (ignore_add group)
                  (match importKind with Some k => k | None => OAll end) message])
    end) pats (sp, gs)
  = (sp ++ flat_map (fun p => match p with PatternString s => [s] | _ => [] end) pats,
     gs ++ flat_map (fun p => match p with
                              | PatternObject group importKind message =>
                                  [mkGroup (ignore_add group)
                                     (match importKind with Some k => k | None => OAll end)
                                     message]
                              | _ => []
                              end) pats).
Proof.
  revert sp gs. induction pats as [|p pats IH]; intros sp gs; simpl.
  - rewrite !app_nil_r. reflexivity.
  - destruct p; rewrite IH, <- !app_assoc; reflexivity.
Qed.

(** The patterns of a composite option: each object pattern becomes its
    own group, in order, with [importKind] defaulting to ['all']; all the
    string patterns together become one last group, of kind ['all'] and
    without message, present only when there is a string pattern. *)
Theorem composite_patterns_grouping name importKind message importNames paths pats :
  parseOptions ignore_add [PathObject name importKind message importNames paths (Some pats)]
  = (map parsePathOption (match paths with Some ps => ps | None => [] end),
     flat_map (fun p => match p with
                        | PatternObject group k m =>
                            [mkGroup (ignore_add group)
                               (match k with Some k' => k' | None => OAll end) m]
                        | _ => []
                        end) pats
     ++ match flat_map (fun p => match p with PatternString s => [s] | _ => [] end) pats with
        | [] => []
        | sp => [mkGroup (ignore_add sp) OAll None]
        end).
Proof.
  unfold parseOptions. simpl.
  unfold parse_option, isCompositeOption. simpl.
  unfold parse_patterns, collect_patterns. rewrite collect_patterns_acc. simpl.
  destruct (flat_map (fun p => match p with PatternString s => [s] | _ => [] end) pats);
    [rewrite app_nil_r|]; reflexivity.
Qed.

End Parse.



End NoRestrictedImportsOptionsFacts.
